(** * go-nfs-client: the NFSv3 volume client ([nfs.Target]) and its status translator

    A shallow embedding of [error.go] and of the methods of [Target]: the
    status translator [NFS3Error], the call wrapper [call], the entry
    cache ([cachedLookup], [invalidateEntryCache], one pass of
    [cleanupCache]), the path resolver [Lookup], the directory pager
    [readDirPlus], the mutations [Mkdir], [Create], [Remove], [RmDir] and
    the recursive delete [RemoveAll], and the constructor [NewTarget] with
    [FSInfo].

    Conventions.
    - A Go [error] that may be [nil] is an [option error]; a Go function
      returning [(T, error)] returns a [result T].
    - [uint32] and [uint64] are [Z] (no arithmetic is done on them here);
      [[]byte] is [list Byte.byte]; [time.Time] and [time.Duration] are [Z]
      (nanoseconds).
    - The RPC transport ([rpc.Client.Call]), the XDR codec ([xdr.Read]) and
      the clock ([time.Now]) are outside the package: they are the fields
      of an environment [Env], and the general statements hold for every
      environment.
    - The loops that the server can keep going (the pages of a listing,
      the entries of a page, the depth of a tree) take fuel; [OutOfFuel]
      is the result of a run that exhausts it.
    - The methods run sequentially on one [Target]; the mutex and the
      goroutine of the janitor are not modelled.  Under sequential
      execution the inner map [es] read from [v.entries] stays the very
      map stored there, so the nested Go maps are nested [gmap]s and a
      write through [es] is a write to [v.entries[ino]]. *)

From Stdlib Require Import ZArith String Ascii List Lia DecimalString DecimalN.
From stdpp Require Import base option gmap strings list.

Open Scope Z_scope.
Open Scope string_scope.
Open Scope list_scope.

(** ** error.go *)

Definition NFS3_OK : Z := 0.
Definition NFS3ERR_PERM : Z := 1.
Definition NFS3ERR_NOENT : Z := 2.
Definition NFS3ERR_IO : Z := 5.
Definition NFS3ERR_NXIO : Z := 6.
Definition NFS3ERR_ACCES : Z := 13.
Definition NFS3ERR_EXIST : Z := 17.
Definition NFS3ERR_XDEV : Z := 18.
Definition NFS3ERR_NODEV : Z := 19.
Definition NFS3ERR_NOTDIR : Z := 20.
Definition NFS3ERR_ISDIR : Z := 21.
Definition NFS3ERR_INVAL : Z := 22.
Definition NFS3ERR_FBIG : Z := 27.
Definition NFS3ERR_NOSPC : Z := 28.
Definition NFS3ERR_ROFS : Z := 30.
Definition NFS3ERR_MLINK : Z := 31.
Definition NFS3ERR_NAMETOOLONG : Z := 63.
Definition NFS3ERR_NOTEMPTY : Z := 66.
Definition NFS3ERR_DQUOT : Z := 69.
Definition NFS3ERR_STALE : Z := 70.
Definition NFS3ERR_REMOTE : Z := 71.
Definition NFS3ERR_BADHANDLE : Z := 10001.
Definition NFS3ERR_NOT_SYNC : Z := 10002.
Definition NFS3ERR_BAD_COOKIE : Z := 10003.
Definition NFS3ERR_NOTSUPP : Z := 10004.
Definition NFS3ERR_TOOSMALL : Z := 10005.
Definition NFS3ERR_SERVERFAULT : Z := 10006.
Definition NFS3ERR_BADTYPE : Z := 10007.

(** The values of Go's [error] interface that the package produces or
    inspects: the three sentinels of package [os], the package's own
    [*Error], and any other error (of the transport or of the codec). *)
Inductive error : Type :=
  | ErrPermission
  | ErrExist
  | ErrNotExist
  | Error (ErrorString : string)
  | ErrExternal (msg : string).

(** [(err *Error) Error()] together with the messages of the others. *)
Definition Error_string (err : error) : string :=
  match err with
  | ErrPermission => "permission denied"
  | ErrExist => "file already exists"
  | ErrNotExist => "file does not exist"
  | Error s => s
  | ErrExternal s => s
  end.

(** [os.IsNotExist] on the values above. *)
Definition os_IsNotExist (err : error) : bool :=
  match err with
  | ErrNotExist => true
  | _ => false
  end.

Definition uint32_max : Z := 4294967295.

(** [fmt.Sprintf("%d", n)] for an unsigned [n]: the decimal digits. *)
Definition fmt_d (n : Z) : string :=
  NilEmpty.string_of_uint (N.to_uint (Z.to_N n)).

(** The inverse reading of a decimal numeral. *)
Definition parse_d (s : string) : option Z :=
  match NilEmpty.uint_of_string s with
  | Some d => Some (Z.of_N (N.of_uint d))
  | None => None
  end.

(** [NFS3Error].  The [switch] has exactly three cases and a [default];
    the [return nil] after it is unreachable. *)
Definition NFS3Error (errnum : Z) : option error :=
  if (errnum =? NFS3ERR_PERM)%Z then Some ErrPermission
  else if (errnum =? NFS3ERR_EXIST)%Z then Some ErrExist
  else if (errnum =? NFS3ERR_NOENT)%Z then Some ErrNotExist
  else Some (Error ("error: " +:+ fmt_d errnum)).

(** ** Wire types

    Modelled from the spec: the declarations of [Fattr], [PostOpAttr],
    [PostOpFH3], [EntryPlus] and [NF3Dir] are not among the sources.
    Attributes describe "type, permission bits, size and timestamps", an
    optional payload is "a presence flag paired with a value", a directory
    entry is "(name, cookie, optional handle, optional attributes)", and
    directories have type code 2. *)

Definition FH : Type := list Byte.byte.

Record Fattr : Type := mkFattr {
  Type_ : Z;
  FileMode : Z;
  Filesize : Z;
  Mtime : Z
}.

Record PostOpAttr : Type := mkPostOpAttr {
  Attr_IsSet : bool;
  Attr : Fattr
}.

Record PostOpFH3 : Type := mkPostOpFH3 {
  FH_IsSet : bool;
  FH_ : FH
}.

Record EntryPlus : Type := mkEntryPlus {
  FileName : string;
  Cookie : Z;
  EAttr : PostOpAttr;
  Handle : PostOpFH3
}.

Definition NF3Dir : Z := 2.

(** The response structures declared inside the methods. *)
Record LookupOk : Type := mkLookupOk {
  LookupOk_FH : FH;
  LookupOk_Attr : PostOpAttr;
  LookupOk_DirAttr : PostOpAttr
}.

Record DirListOK : Type := mkDirListOK {
  DirAttrs : PostOpAttr;
  CookieVerf : Z
}.

Record DirListPlus3 : Type := mkDirListPlus3 {
  IsSet : bool;
  Entry : EntryPlus
}.

Record MkdirOk : Type := mkMkdirOk {
  MkdirOk_FH : PostOpFH3;
  MkdirOk_Attr : PostOpAttr
}.

Record Create3Res : Type := mkCreate3Res {
  Create3Res_FH : PostOpFH3;
  Create3Res_Attr : PostOpAttr
}.

(** The request structures.  Every one carries the same [rpc.Header]
    (version 2, the NFS program and version, the credentials of the
    target, a null verifier) with the procedure number of its kind, which
    the constructor stands for. *)
Inductive Request : Type :=
  | FSInfoArgs (FsRoot : FH)
  | Lookup3Args (fh : FH) (Filename : string)
  | ReadDirPlus3Args (fh : FH) (cookie cookieVerf DirCount MaxCount : Z)
  | MkdirArgs (fh : FH) (Filename : string) (Mode : Z)
  | Create3Args (fh : FH) (Filename : string) (Mode : Z)
  | RemoveArgs (fh : FH) (Filename : string)
  | RmDir3Args (fh : FH) (Filename : string).

(** ** Results *)

Inductive result (A : Type) : Type :=
  | Ok (a : A)
  | Err (e : error)
  | OutOfFuel.
Arguments Ok {A} a.
Arguments Err {A} e.
Arguments OutOfFuel {A}.

Definition is_Ok {A} (r : result A) : bool :=
  match r with Ok _ => true | _ => false end.

(** ** The environment: transport, codec, clock *)

Record Env : Type := mkEnv {
  World : Type;
  Reader : Type;
  (* time.Now(): the instant read, and the world after the reading *)
  time_Now : World -> Z * World;
  (* rpc.Client.Call: a transport error or a response stream *)
  rpc_Call : Request -> World -> result Reader * World;
  (* xdr.ReadUint32 and xdr.Read at each type: the value decoded and the
     stream after it, or a decoding error *)
  xdr_ReadUint32 : Reader -> result (Z * Reader);
  xdr_Read_bool : Reader -> result (bool * Reader);
  xdr_Read_LookupOk : Reader -> result (LookupOk * Reader);
  xdr_Read_DirListOK : Reader -> result (DirListOK * Reader);
  xdr_Read_DirListPlus3 : Reader -> result (DirListPlus3 * Reader);
  xdr_Read_MkdirOk : Reader -> result (MkdirOk * Reader);
  xdr_Read_Create3Res : Reader -> result (Create3Res * Reader);
  (* IsNotDirError, a function of the package that is not among the
     sources *)
  IsNotDirError : error -> bool
}.

(** ** The target *)

Record cacheEntry : Type := mkCacheEntry {
  ce_fh : FH;
  ce_attr : Fattr;
  ce_expire : Z
}.

Abbreviation cache := (gmap string (gmap string cacheEntry)).

Record Target : Type := mkTarget {
  t_fh : FH;
  entryTimeout : Z;
  entries : cache
}.

Definition set_entries (v : Target) (m : cache) : Target :=
  {| t_fh := t_fh v; entryTimeout := entryTimeout v; entries := m |}.

(** The state a method runs in: the outside world, the target, and the
    log of the requests handed to the transport so far (a ghost field:
    nothing reads it). *)
Record State (E : Env) : Type := mkState {
  world : World E;
  target : Target;
  trace : list Request
}.
Arguments mkState {E} _ _ _.
Arguments world {E} _.
Arguments target {E} _.
Arguments trace {E} _.

Definition set_world {E} (st : State E) (w : World E) : State E :=
  mkState w (target st) (trace st).
Definition set_cache {E} (st : State E) (m : cache) : State E :=
  mkState (world st) (set_entries (target st) m) (trace st).
Definition log {E} (st : State E) (c : Request) : State E :=
  mkState (world st) (target st) (trace st ++ [c]).

Definition M (E : Env) (A : Type) : Type := State E -> result A * State E.

Definition ret {E A} (a : A) : M E A := fun st => (Ok a, st).
Definition fail {E A} (e : error) : M E A := fun st => (Err e, st).
Definition bind {E A B} (m : M E A) (k : A -> M E B) : M E B :=
  fun st =>
    match m st with
    | (Ok a, st') => k a st'
    | (Err e, st') => (Err e, st')
    | (OutOfFuel, st') => (OutOfFuel, st')
    end.
(** A decoding step: it touches no state. *)
Definition lift {E A} (r : result A) : M E A := fun st => (r, st).


#[global] Instance M_ret {E} : MRet (M E) := fun A a => ret a.
#[global] Instance M_bind {E} : MBind (M E) := fun A B k m => bind m k.

(** ** Library functions on paths

    Models of three functions of Go's standard library, as their
    documentation describes them, for slash-separated paths. *)

(** [strings.Split(s, "/")]: the substrings between the separators; a
    string without separator gives the one-element list of itself. *)
Fixpoint strings_Split (sep : ascii) (s : string) : list string :=
  match s with
  | EmptyString => [EmptyString]
  | String c rest =>
      if Ascii.eqb c sep then EmptyString :: strings_Split sep rest
      else match strings_Split sep rest with
           | h :: t => String c h :: t
           | [] => [String c EmptyString]
           end
  end.

(** [filepath.Split]: the path up to and including its last slash, and
    what follows it. *)
Fixpoint filepath_Split (p : string) : string * string :=
  match p with
  | EmptyString => (EmptyString, EmptyString)
  | String c rest =>
      let '(d, f) := filepath_Split rest in
      match d with
      | String _ _ => (String c d, f)
      | EmptyString =>
          if Ascii.eqb c "/" then (String c EmptyString, f)
          else (EmptyString, String c f)
      end
  end.

Fixpoint join_slash (l : list string) : string :=
  match l with
  | [] => EmptyString
  | [x] => x
  | x :: rest => x +:+ "/" +:+ join_slash rest
  end.

(** One element of the path seen by [path.Clean]; [stack] holds the
    elements kept so far, the last one first. *)
Definition clean_step (rooted : bool) (stack : list string) (c : string)
    : list string :=
  if String.eqb c EmptyString || String.eqb c "." then stack
  else if String.eqb c ".." then
    match stack with
    | top :: below => if String.eqb top ".." then c :: stack else below
    | [] => if rooted then [] else [c]
    end
  else c :: stack.

(** [path.Clean]: empty and "." elements dropped, each inner ".." dropped
    with the element before it, ".." dropped at the start of a rooted
    path; the empty result is ".". *)
Definition path_Clean (p : string) : string :=
  let rooted := match p with String c _ => Ascii.eqb c "/" | _ => false end in
  let stack := fold_left (clean_step rooted) (strings_Split "/" p) [] in
  let out := (if rooted then "/" else EmptyString) +:+ join_slash (rev stack) in
  if String.eqb out EmptyString then "." else out.

(** ** One pass of the janitor

    [cleanupCache] loops for ever: lock, sweep, unlock, sleep one second.
    A pass is the body between lock and unlock.  Go leaves the order of a
    [range] over a map unspecified, so the pass takes the order as an
    argument: the keys of [v.entries] as the outer loop meets them, each
    with the names of its inner map as the inner loop meets them. *)

Definition range_order (c : cache) (order : list (string * list string)) : Prop :=
  NoDup (order.*1) ∧
  (∀ fh, fh ∈ order.*1 ↔ is_Some (c !! fh)) ∧
  (∀ fh names es, (fh, names) ∈ order → c !! fh = Some es →
     NoDup names ∧ ∀ n, n ∈ names ↔ is_Some (es !! n)).

(** The inner loop over the map [es] of the key [fh].  It returns the
    cache, the counter, and whether [break OUTER] was taken.  A name that
    is not in [es] is not produced by the [range]. *)
Fixpoint sweep_bucket (now : Z) (fh : string) (names : list string)
    (es : gmap string cacheEntry) (ents : cache) (cnt : Z) : cache * Z * bool :=
  match names with
  | [] => (ents, cnt, false)
  | n :: names' =>
      match es !! n with
      | None => sweep_bucket now fh names' es ents cnt
      | Some e =>
          let '(es1, ents1) :=
            if (ce_expire e <? now)%Z then          (* now.After(e.expire) *)
              let es1 := delete n es in
              (es1, if (Z.of_nat (size es1) =? 0)%Z
                    then delete fh ents
                    else <[fh := es1]> ents)
            else (es, ents) in
          let cnt1 := (cnt + 1)%Z in
          if (1000 <? cnt1)%Z then (ents1, cnt1, true)
          else sweep_bucket now fh names' es1 ents1 cnt1
      end
  end.

(** The outer loop. *)
Fixpoint sweep (now : Z) (order : list (string * list string))
    (ents : cache) (cnt : Z) : cache * Z :=
  match order with
  | [] => (ents, cnt)
  | (fh, names) :: rest =>
      match ents !! fh with
      | None => sweep now rest ents cnt
      | Some es =>
          let '(ents1, cnt1, brk) := sweep_bucket now fh names es ents cnt in
          if brk : bool then (ents1, cnt1) else sweep now rest ents1 cnt1
      end
  end.

(** ** The methods of [Target] *)

Section Client.
Context (E : Env).

(** [call]: wraps the transport call, reads the leading status and
    translates it. *)
Definition call (c : Request) : M E (Reader E) := fun st =>
  let '(r, w') := rpc_Call E c (world st) in
  let st' := log (set_world st w') c in
  match r with
  | Ok res =>
      match xdr_ReadUint32 E res with
      | Ok (status, res') =>
          match NFS3Error status with
          | Some err => (Err err, st')
          | None => (Ok res', st')
          end
      | Err err => (Err err, st')
      | OutOfFuel => (OutOfFuel, st')
      end
  | Err err => (Err err, st')
  | OutOfFuel => (OutOfFuel, st')
  end.

Definition parsefh (fh : FH) : string := string_of_list_byte fh.

(** [lookup]: one LOOKUP call by handle and name. *)
Definition lookup (fh : FH) (name : string) : M E (Fattr * FH) :=
  res ← call (Lookup3Args fh name);
  '(lookupres, _) ← lift (xdr_Read_LookupOk E res);
  mret (Attr (LookupOk_Attr lookupres), LookupOk_FH lookupres).

(** The part of [cachedLookup] after the cache has been consulted: the
    remote lookup, and the insertion of a directory result.  [es] is the
    inner map read at the start ([None] for Go's [nil]). *)
Definition cachedLookup_remote (fh : FH) (name : string)
    (es : option (gmap string cacheEntry)) : M E (Fattr * FH) := fun st =>
  let ino := parsefh fh in
  match lookup fh name st with
  | (Ok (attr, fh'), st1) =>
      if (Type_ attr =? 2)%Z then
        let '(now, w2) := time_Now E (world st1) in
        let e := mkCacheEntry fh' attr (now + entryTimeout (target st1)) in
        let es' := <[name := e]> (default ∅ es) in
        (Ok (attr, fh'),
         set_cache (set_world st1 w2) (<[ino := es']> (entries (target st1))))
      else (Ok (attr, fh'), st1)
  | (r, st1) => (r, st1)
  end.

(** [cachedLookup]. *)
Definition cachedLookup (fh : FH) (name : string) : M E (Fattr * FH) := fun st =>
  let ino := parsefh fh in
  let es := entries (target st) !! ino in
  match es ≫= (fun m => m !! name) with
  | Some e =>
      (* e != nil: time.Since(e.expire) reads the clock *)
      let '(now, w1) := time_Now E (world st) in
      if (now - ce_expire e <? 0)%Z
      then (Ok (ce_attr e, ce_fh e), set_world st w1)
      else cachedLookup_remote fh name es (set_world st w1)
  | None => cachedLookup_remote fh name es st
  end.

(** [invalidateEntryCache]. *)
Definition invalidateEntryCache (fh : FH) (name : string) : M E unit := fun st =>
  let ino := parsefh fh in
  match entries (target st) !! ino with
  | Some es => (Ok tt, set_cache st (<[ino := delete name es]> (entries (target st))))
  | None => (Ok tt, st)
  end.

(** [Lookup]: the loop over the elements of the cleaned path. *)
Fixpoint Lookup_loop (dirents : list string) (fattr : option Fattr) (fh : FH)
    : M E (option Fattr * FH) :=
  match dirents with
  | [] => mret (fattr, fh)
  | dirent :: rest =>
      let dirent := if String.eqb dirent EmptyString then "." else dirent in
      '(fattr', fh') ← cachedLookup fh dirent;
      Lookup_loop rest (Some fattr') fh'
  end.

Definition Lookup (p : string) : M E (option Fattr * FH) := fun st =>
  Lookup_loop (strings_Split "/" (path_Clean p)) None (t_fh (target st)) st.

(** The inner loop of [readDirPlus]: the run of entries of one page, each
    announced by a presence flag. *)
Fixpoint read_entries (fuel : nat) (res : Reader E) (cookie : Z)
    (acc : list EntryPlus) : result (Z * list EntryPlus * Reader E) :=
  match fuel with
  | O => OutOfFuel
  | S fuel' =>
      match xdr_Read_DirListPlus3 E res with
      | Ok (item, res') =>
          if IsSet item
          then read_entries fuel' res' (Cookie (Entry item)) (acc ++ [Entry item])
          else Ok (cookie, acc, res')
      | Err err => Err err
      | OutOfFuel => OutOfFuel
      end
  end.

(** The outer loop of [readDirPlus]: one READDIRPLUS call per turn. *)
Fixpoint readDirPlus_loop (fuel : nat) (fh : FH) (cookie cookieVerf : Z)
    (acc : list EntryPlus) : M E (list EntryPlus) :=
  match fuel with
  | O => lift OutOfFuel
  | S fuel' =>
      res ← call (ReadDirPlus3Args fh cookie cookieVerf 512 4096);
      '(dirlistOK, res1) ← lift (xdr_Read_DirListOK E res);
      '(cookie', acc', res2) ← lift (read_entries fuel' res1 cookie acc);
      '(eof, _) ← lift (xdr_Read_bool E res2);
      if eof : bool then mret acc'
      else readDirPlus_loop fuel' fh cookie' (CookieVerf dirlistOK) acc'
  end.

Definition readDirPlus (fuel : nat) (fh : FH) : M E (list EntryPlus) :=
  readDirPlus_loop fuel fh 0 0 [].

Definition ReadDirPlus (fuel : nat) (dir : string) : M E (list EntryPlus) :=
  '(_, fh) ← Lookup dir;
  readDirPlus fuel fh.

(** [os.FileMode.Perm]: the nine permission bits. *)
Definition Perm (perm : Z) : Z := Z.land perm 511.

Definition Mkdir (path : string) (perm : Z) : M E FH :=
  let '(dir, newDir) := filepath_Split path in
  '(_, fh) ← Lookup dir;
  res ← call (MkdirArgs fh newDir (Perm perm));
  '(mkdirres, _) ← lift (xdr_Read_MkdirOk E res);
  _ ← invalidateEntryCache fh newDir;
  mret (FH_ (MkdirOk_FH mkdirres)).

Definition Create (path : string) (perm : Z) : M E FH :=
  let '(dir, newFile) := filepath_Split path in
  '(_, fh) ← Lookup dir;
  res ← call (Create3Args fh newFile (Perm perm));
  '(status, _) ← lift (xdr_Read_Create3Res E res);
  _ ← invalidateEntryCache fh newFile;
  mret (FH_ (Create3Res_FH status)).

Definition remove (fh : FH) (deleteFile : string) : M E unit :=
  _ ← call (RemoveArgs fh deleteFile);
  invalidateEntryCache fh deleteFile.

Definition Remove (path : string) : M E unit :=
  let '(parentDir, deleteFile) := filepath_Split path in
  '(_, fh) ← Lookup parentDir;
  remove fh deleteFile.

Definition rmDir (fh : FH) (name : string) : M E unit :=
  _ ← call (RmDir3Args fh name);
  invalidateEntryCache fh name.

Definition RmDir (path : string) : M E unit :=
  let '(dir, deletedir) := filepath_Split path in
  '(_, fh) ← Lookup dir;
  rmDir fh deletedir.

(** The loop of [removeAll] over the listed entries; [rec] is the
    recursive call of [removeAll] on a child directory. *)
Fixpoint removeAll_entries (rec : FH -> M E unit) (deleteDirfh : FH)
    (l : list EntryPlus) : M E unit :=
  match l with
  | [] => mret tt
  | entry :: rest =>
      if String.eqb (FileName entry) "." || String.eqb (FileName entry) ".."
      then removeAll_entries rec deleteDirfh rest
      else
        _ ← (if (Type_ (Attr (EAttr entry)) =? NF3Dir)%Z then
               _ ← (if FH_IsSet (Handle entry)
                    then rec (FH_ (Handle entry))
                    else mret tt);
               rmDir deleteDirfh (FileName entry)
             else remove deleteDirfh (FileName entry));
        removeAll_entries rec deleteDirfh rest
  end.

(** [removeAll]; the fuel bounds the depth of the recursion and the loops
    of the pager. *)
Fixpoint removeAll (fuel : nat) (deleteDirfh : FH) : M E unit :=
  match fuel with
  | O => lift OutOfFuel
  | S fuel' =>
      l ← readDirPlus fuel' deleteDirfh;
      removeAll_entries (removeAll fuel') deleteDirfh l
  end.

Definition RemoveAll (fuel : nat) (path : string) : M E unit :=
  let '(parentDir, deleteDir) := filepath_Split path in
  '(_, parentDirfh) ← Lookup parentDir;
  ((fun st =>
    match rmDir parentDirfh deleteDir st with
    | (Ok _, st1) => (Ok tt, st1)
    | (OutOfFuel, st1) => (OutOfFuel, st1)
    | (Err err, st1) =>
        if os_IsNotExist err then (Ok tt, st1)
        else if IsNotDirError E err then (Err err, st1)
        else
          ('(_, deleteDirfh) ← lookup parentDirfh deleteDir;
           _ ← removeAll fuel deleteDirfh;
           rmDir parentDirfh deleteDir) st1
    end) : M E unit).

(** One pass of [cleanupCache]; the value returned is the final [cnt],
    the number of entries the pass has inspected. *)
Definition cleanupCache_pass (order : list (string * list string)) : M E Z :=
  fun st =>
    let '(now, w1) := time_Now E (world st) in
    let '(ents, cnt) := sweep now order (entries (target st)) 0 in
    (Ok cnt, set_cache (set_world st w1) ents).

End Client.

Arguments call {E} c st.
Arguments lookup {E} fh name st.
Arguments cachedLookup_remote {E} fh name es st.
Arguments cachedLookup {E} fh name st.
Arguments invalidateEntryCache {E} fh name st.
Arguments Lookup_loop {E} dirents fattr fh st.
Arguments Lookup {E} p st.
Arguments read_entries {E} fuel res cookie acc.
Arguments readDirPlus_loop {E} fuel fh cookie cookieVerf acc st.
Arguments readDirPlus {E} fuel fh st.
Arguments ReadDirPlus {E} fuel dir st.
Arguments Mkdir {E} path perm st.
Arguments Create {E} path perm st.
Arguments remove {E} fh deleteFile st.
Arguments Remove {E} path st.
Arguments rmDir {E} fh name st.
Arguments RmDir {E} path st.
Arguments removeAll_entries {E} rec deleteDirfh l st.
Arguments removeAll {E} fuel deleteDirfh st.
Arguments RemoveAll {E} fuel path st.
Arguments cleanupCache_pass {E} order st.

(** A response stream holds the run of entries [es]: each is read with
    its presence flag set, and the item after the last has it clear;
    [res'] is the stream after that item. *)
Inductive entry_run (E : Env) : Reader E → list EntryPlus → Reader E → Prop :=
  | entry_run_end res item res' :
      xdr_Read_DirListPlus3 E res = Ok (item, res') →
      IsSet item = false →
      entry_run E res [] res'
  | entry_run_more res item res1 es res' :
      xdr_Read_DirListPlus3 E res = Ok (item, res1) →
      IsSet item = true →
      entry_run E res1 es res' →
      entry_run E res (Entry item :: es) res'.
Arguments entry_run {E} _ _ _.

(** The cookie left by a run: that of its last entry, or the cookie held
    before when the run is empty. *)
Definition last_cookie (cookie : Z) (es : list EntryPlus) : Z :=
  fold_left (λ _ e, Cookie e) es cookie.

(** ** A concrete environment

    Response streams are lists of typed values, read from the front; the
    server is a function from requests to responses; the clock stands
    still between two settings of it. *)

Inductive Token : Type :=
  | TUint32 (n : Z)
  | TBool (b : bool)
  | TLookupOk (r : LookupOk)
  | TDirListOK (r : DirListOK)
  | TDirListPlus3 (r : DirListPlus3)
  | TMkdirOk (r : MkdirOk)
  | TCreate3Res (r : Create3Res).

Definition errDecode : error := ErrExternal "xdr: unexpected data".

Record Server : Type := mkServer {
  clock : Z;
  serve : Request -> result (list Token)
}.

(** Modelled from the spec: [IsNotDirError] is not among the sources.  An
    error "indicates not a directory" when it is the translation of the
    status not-a-directory (20). *)
Definition isNotDir (err : error) : bool :=
  match err with
  | Error s => String.eqb s ("error: " +:+ fmt_d NFS3ERR_NOTDIR)
  | _ => false
  end.

Definition testEnv : Env := {|
  World := Server;
  Reader := list Token;
  time_Now := fun w => (clock w, w);
  rpc_Call := fun c w => (serve w c, w);
  xdr_ReadUint32 := fun r =>
    match r with TUint32 n :: r' => Ok (n, r') | _ => Err errDecode end;
  xdr_Read_bool := fun r =>
    match r with TBool b :: r' => Ok (b, r') | _ => Err errDecode end;
  xdr_Read_LookupOk := fun r =>
    match r with TLookupOk x :: r' => Ok (x, r') | _ => Err errDecode end;
  xdr_Read_DirListOK := fun r =>
    match r with TDirListOK x :: r' => Ok (x, r') | _ => Err errDecode end;
  xdr_Read_DirListPlus3 := fun r =>
    match r with TDirListPlus3 x :: r' => Ok (x, r') | _ => Err errDecode end;
  xdr_Read_MkdirOk := fun r =>
    match r with TMkdirOk x :: r' => Ok (x, r') | _ => Err errDecode end;
  xdr_Read_Create3Res := fun r =>
    match r with TCreate3Res x :: r' => Ok (x, r') | _ => Err errDecode end;
  IsNotDirError := isNotDir
|}.

Definition handle (s : string) : FH := list_byte_of_string s.

Definition dirAttr : Fattr := mkFattr 2 493 4096 0.
Definition fileAttr : Fattr := mkFattr 1 420 12 0.
Definition noAttr : PostOpAttr := mkPostOpAttr false (mkFattr 0 0 0 0).

(** A target as [NewTarget] leaves it: the root handle, a timeout, an
    empty cache. *)
Definition freshTarget : Target := mkTarget (handle "root") 1000 ∅.

Definition start (srv : Server) (v : Target) : State testEnv :=
  mkState (srv : World testEnv) v [].

(** ** A sample volume

    The server of the examples below holds the tree

      root/ { a/ { d.txt }, e/ }

    and answers each request as an NFSv3 server holding that tree answers
    it: status 0 and the result where the operation succeeds, the
    protocol's status code where it does not.  It lists [a] in two pages
    (".", ".." and then "d.txt"). *)

Definition fh_eqb (x y : FH) : bool :=
  String.eqb (string_of_list_byte x) (string_of_list_byte y).

Definition reply_ok (body : list Token) : result (list Token) :=
  Ok (TUint32 NFS3_OK :: body).
Definition reply_status (n : Z) : result (list Token) := Ok [TUint32 n].

Definition lookup_ok (h : string) (a : Fattr) : result (list Token) :=
  reply_ok [TLookupOk (mkLookupOk (handle h) (mkPostOpAttr true a) noAttr)].

Definition entry (name : string) (cookie : Z) (h : string) (a : Fattr)
    : EntryPlus :=
  mkEntryPlus name cookie (mkPostOpAttr true a) (mkPostOpFH3 true (handle h)).

Definition item (e : EntryPlus) : Token := TDirListPlus3 (mkDirListPlus3 true e).
Definition no_item : Token :=
  TDirListPlus3 (mkDirListPlus3 false (mkEntryPlus EmptyString 0 noAttr (mkPostOpFH3 false []))).

Definition e_dot : EntryPlus := entry "." 1 "a" dirAttr.
Definition e_dotdot : EntryPlus := entry ".." 2 "root" dirAttr.
Definition e_dtxt : EntryPlus := entry "d.txt" 3 "d" fileAttr.

Definition volume (c : Request) : result (list Token) :=
  match c with
  | Lookup3Args fh name =>
      if fh_eqb fh (handle "root") then
        if String.eqb name "." then lookup_ok "root" dirAttr
        else if String.eqb name "a" then lookup_ok "a" dirAttr
        else if String.eqb name "e" then lookup_ok "e" dirAttr
        else reply_status NFS3ERR_NOENT
      else if fh_eqb fh (handle "a") then
        if String.eqb name "." then lookup_ok "a" dirAttr
        else if String.eqb name "d.txt" then lookup_ok "d" fileAttr
        else reply_status NFS3ERR_NOENT
      else reply_status NFS3ERR_STALE
  | ReadDirPlus3Args fh cookie verf _ _ =>
      if fh_eqb fh (handle "a") then
        if (cookie =? 0)%Z then
          reply_ok [TDirListOK (mkDirListOK noAttr 7);
                    item e_dot; item e_dotdot; no_item; TBool false]
        else if (cookie =? 2)%Z && (verf =? 7)%Z then
          reply_ok [TDirListOK (mkDirListOK noAttr 7);
                    item e_dtxt; no_item; TBool true]
        else reply_status NFS3ERR_BAD_COOKIE
      else reply_status NFS3ERR_STALE
  | RmDir3Args fh name =>
      if fh_eqb fh (handle "root") then
        if String.eqb name "a" then reply_status NFS3ERR_NOTEMPTY
        else if String.eqb name "e" then reply_ok []
        else reply_status NFS3ERR_NOENT
      else if fh_eqb fh (handle "a") then
        if String.eqb name "d.txt" then reply_status NFS3ERR_NOTDIR
        else reply_status NFS3ERR_NOENT
      else reply_status NFS3ERR_STALE
  | RemoveArgs fh name =>
      if fh_eqb fh (handle "a") && String.eqb name "d.txt" then reply_ok []
      else reply_status NFS3ERR_NOENT
  | MkdirArgs fh name _ =>
      if fh_eqb fh (handle "root") && String.eqb name "b"
      then reply_ok [TMkdirOk (mkMkdirOk (mkPostOpFH3 true (handle "b")) noAttr)]
      else reply_status NFS3ERR_EXIST
  | Create3Args fh name _ =>
      if fh_eqb fh (handle "root") && String.eqb name "f"
      then reply_ok [TCreate3Res (mkCreate3Res (mkPostOpFH3 true (handle "f")) noAttr)]
      else reply_status NFS3ERR_EXIST
  | FSInfoArgs _ => reply_status NFS3ERR_NOTSUPP
  end.

Definition server_at (now : Z) : Server := mkServer now volume.

(** A target whose cache holds the directory [a] under the root, stored
    with expiration instant 100. *)
Definition cachedTarget : Target :=
  mkTarget (handle "root") 1000
    {[ parsefh (handle "root") :=
         {[ "a" := mkCacheEntry (handle "a") dirAttr 100 ]} ]}.

(** A target whose cache holds, unexpired until 100, the root under its
    own name "." and the empty directory [e]. *)
Definition rootCachedTarget : Target :=
  mkTarget (handle "root") 1000
    {[ parsefh (handle "root") :=
         {[ "." := mkCacheEntry (handle "root") dirAttr 100;
            "e" := mkCacheEntry (handle "e") dirAttr 100 ]} ]}.

(** The directory [a] of the sample volume, listed without its handle. *)
Definition a_without_handle : EntryPlus :=
  mkEntryPlus "a" 3 (mkPostOpAttr true dirAttr) (mkPostOpFH3 false []).

(** A cache of 1001 entries under one key, all stored with expiration
    instant 0. *)
Definition names1001 : list string :=
  map (λ i, fmt_d (Z.of_nat i)) (seq 0 1001).

Definition bigBucket : gmap string cacheEntry :=
  list_to_map (map (λ n, (n, mkCacheEntry (handle n) dirAttr 0)) names1001).

Definition bigTarget : Target :=
  mkTarget (handle "root") 1000 {[ "root" := bigBucket ]}.

(** ** The constructor

    [FSInfo] and [NewTarget].  The type of the filesystem information and
    its decoder, and [DialService] (which opens the connection), are not
    among the sources: they are arguments.  [NewTarget] returns the target
    it has built together with the information it stores in it; where the
    second component of its result is the world it leaves and the requests
    it has sent.  On success the Go code also starts the janitor. *)

Section Constructor.
Context (E : Env) (FSInfo_t : Type).
Context (xdr_Read_FSInfo : Reader E → result (FSInfo_t * Reader E)).
Context (DialService : World E → result unit * World E).

Definition FSInfo : M E FSInfo_t := fun st =>
  (res ← call (FSInfoArgs (t_fh (target st)));
   '(fsinfo, _) ← lift (xdr_Read_FSInfo res);
   mret fsinfo) st.

Definition NewTarget (fh : FH) (entryTimeout : Z) (w : World E)
    : result (Target * FSInfo_t) * (World E * list Request) :=
  match DialService w with
  | (Ok _, w1) =>
      let vol := mkTarget fh entryTimeout ∅ in
      match FSInfo (mkState w1 vol []) with
      | (Ok fsinfo, st) => (Ok (target st, fsinfo), (world st, trace st))
      | (Err err, st) => (Err err, (world st, trace st))
      | (OutOfFuel, st) => (OutOfFuel, (world st, trace st))
      end
  | (Err err, w1) => (Err err, (w1, []))
  | (OutOfFuel, w1) => (OutOfFuel, (w1, []))
  end.

End Constructor.

Arguments FSInfo {E FSInfo_t} xdr_Read_FSInfo st.
Arguments NewTarget {E FSInfo_t} xdr_Read_FSInfo DialService fh entryTimeout w.

(** ** Predicates on the cache *)

(** Every entry of the cache has the attributes of a directory. *)
Definition dirs_only (c : cache) : Prop :=
  ∀ ino es name e,
    c !! ino = Some es → es !! name = Some e → Type_ (ce_attr e) = 2%Z.

(** The entry stored for a parent key and a name, if any. *)
Definition cache_lookup (c : cache) (ino name : string) : option cacheEntry :=
  c !! ino ≫= (λ es, es !! name).

(** The number of names an iteration order lists. *)
Definition order_entries (order : list (string * list string)) : nat :=
  sum_list (map (λ p, length p.2) order).

(** [c'] is [c] after expired entries have been taken out: a key that
    is left has a part of its old map with every unexpired entry in it; a
    key that is gone had entries, all of them expired at [now]. *)
Definition swept (now : Z) (c c' : cache) : Prop :=
  (∀ ino es', c' !! ino = Some es' →
     ∃ es, c !! ino = Some es ∧ es' ⊆ es
           ∧ ∀ n e, es !! n = Some e → (now ≤ ce_expire e)%Z → es' !! n = Some e)
  ∧ (∀ ino es, c !! ino = Some es → c' !! ino = None →
       es ≠ ∅ ∧ ∀ n e, es !! n = Some e → (ce_expire e < now)%Z).

(** No entry of the cache is expired at [now]. *)
Definition no_expired (now : Z) (c : cache) : Prop :=
  ∀ ino es n e, c !! ino = Some es → es !! n = Some e → (now ≤ ce_expire e)%Z.

(** A target whose cache holds under the root the directory [a], stored
    until 100, and the directory [old], stored until 10; and a target
    whose cache holds the key of the root with an empty map, as
    [invalidateEntryCache] leaves it after the last name. *)
Definition staleBucket : gmap string cacheEntry :=
  {[ "a" := mkCacheEntry (handle "a") dirAttr 100;
     "old" := mkCacheEntry (handle "old") dirAttr 10 ]}.

Definition staleTarget : Target :=
  mkTarget (handle "root") 1000 {[ parsefh (handle "root") := staleBucket ]}.

Definition emptyBucketTarget : Target :=
  mkTarget (handle "root") 1000 {[ parsefh (handle "root") := ∅ ]}.

(** A second volume: the root holds the directory [p], which holds the
    directory [sub], itself not empty.  The server lists [p] in one page
    and gives no handle for [sub]. *)
Definition p_dot : EntryPlus := entry "." 1 "p" dirAttr.
Definition p_dotdot : EntryPlus := entry ".." 2 "root" dirAttr.
Definition sub_without_handle : EntryPlus :=
  mkEntryPlus "sub" 3 (mkPostOpAttr true dirAttr) (mkPostOpFH3 false []).

Definition volume_p (c : Request) : result (list Token) :=
  match c with
  | Lookup3Args fh name =>
      if fh_eqb fh (handle "root") then
        if String.eqb name "." then lookup_ok "root" dirAttr
        else if String.eqb name "p" then lookup_ok "p" dirAttr
        else reply_status NFS3ERR_NOENT
      else if fh_eqb fh (handle "p") then
        if String.eqb name "." then lookup_ok "p" dirAttr
        else if String.eqb name "sub" then lookup_ok "sub" dirAttr
        else reply_status NFS3ERR_NOENT
      else reply_status NFS3ERR_STALE
  | ReadDirPlus3Args fh cookie verf _ _ =>
      if fh_eqb fh (handle "p") then
        if (cookie =? 0)%Z then
          reply_ok [TDirListOK (mkDirListOK noAttr 9);
                    item p_dot; item p_dotdot; item sub_without_handle;
                    no_item; TBool true]
        else reply_status NFS3ERR_BAD_COOKIE
      else reply_status NFS3ERR_STALE
  | RmDir3Args fh name =>
      if fh_eqb fh (handle "root") && String.eqb name "p"
      then reply_status NFS3ERR_NOTEMPTY
      else if fh_eqb fh (handle "p") && String.eqb name "sub"
      then reply_status NFS3ERR_NOTEMPTY
      else reply_status NFS3ERR_NOENT
  | _ => reply_status NFS3ERR_NOTSUPP
  end.

Definition server_p (now : Z) : Server := mkServer now volume_p.

(** Kinds of requests and of listed entries. *)
Definition is_Lookup3Args (c : Request) : Prop :=
  match c with Lookup3Args _ _ => True | _ => False end.

Definition is_ReadDirPlus_of (fh : FH) (c : Request) : Prop :=
  ∃ cookie verf, c = ReadDirPlus3Args fh cookie verf 512 4096.

Definition is_dot (ent : EntryPlus) : Prop :=
  FileName ent = "." ∨ FileName ent = "..".

(** A computation keeps a property of the cache. *)
Definition preserves {E : Env} {A : Type} (P : cache → Prop) (m : M E A) : Prop :=
  ∀ st, P (entries (target st)) → P (entries (target (m st).2)).

(** Unfolding of the monad's operations. *)
Ltac unfold_M :=
  unfold mbind, M_bind, bind, mret, M_ret, ret, lift, fail in *.

(** * Properties *)

(** ** The status translator *)

Lemma fmt_d_parse (n : Z) : (0 ≤ n)%Z → parse_d (fmt_d n) = Some n.
Proof.
  intros Hn. unfold parse_d, fmt_d.
  rewrite NilEmpty.usu, Unsigned.of_to.
  f_equal. apply Z2N.id, Hn.
Qed.

Lemma fmt_d_inj (n m : Z) : (0 ≤ n)%Z → (0 ≤ m)%Z → fmt_d n = fmt_d m → n = m.
Proof.
  intros Hn Hm Heq.
  assert (H : parse_d (fmt_d n) = parse_d (fmt_d m)) by (now rewrite Heq).
  rewrite !fmt_d_parse in H by assumption. congruence.
Qed.

(** The translator has no case that returns [nil]. *)
Lemma NFS3Error_is_Some (errnum : Z) : is_Some (NFS3Error errnum).
Proof.
  unfold NFS3Error.
  repeat match goal with |- context [if ?b then _ else _] => destruct b end;
    eauto.
Qed.

Lemma NFS3Error_default (errnum : Z) :
  errnum ≠ NFS3ERR_PERM → errnum ≠ NFS3ERR_EXIST → errnum ≠ NFS3ERR_NOENT →
  NFS3Error errnum = Some (Error ("error: " +:+ fmt_d errnum)).
Proof.
  intros H1 H2 H3. unfold NFS3Error.
  apply Z.eqb_neq in H1, H2, H3. now rewrite H1, H2, H3.
Qed.

(** ** The call wrapper *)

Section CallFacts.
Context {E : Env}.
Implicit Types (st : State E) (c : Request).

(** A call hands exactly one request to the transport and leaves the
    target alone. *)
Lemma call_state c st :
  trace (call c st).2 = trace st ++ [c] ∧ target (call c st).2 = target st.
Proof.
  unfold call. destruct (rpc_Call E c (world st)) as [[res|err|] w'];
    [|done..].
  destruct (xdr_ReadUint32 E res) as [[status res']|err|]; [|done..].
  destruct (NFS3Error status); done.
Qed.

(** Since the translator never returns [nil], no call returns a
    response. *)
Lemma call_not_Ok c st : is_Ok (call c st).1 = false.
Proof.
  unfold call. destruct (rpc_Call E c (world st)) as [[res|err|] w'];
    [|done..].
  destruct (xdr_ReadUint32 E res) as [[status res']|err|]; [|done..].
  destruct (NFS3Error_is_Some status) as [e ->]. done.
Qed.

Lemma lookup_state fh name st :
  trace (lookup fh name st).2 = trace st ++ [Lookup3Args fh name]
  ∧ target (lookup fh name st).2 = target st.
Proof.
  unfold lookup. unfold_M.
  pose proof (call_state (Lookup3Args fh name) st) as Hc.
  destruct (call (Lookup3Args fh name) st) as [[res|err|] st1]; [|done..].
  simpl in Hc.
  destruct (xdr_Read_LookupOk E res) as [[lookupres ?]|err|]; done.
Qed.

Lemma cachedLookup_remote_trace fh name es st :
  trace (cachedLookup_remote fh name es st).2
  = trace st ++ [Lookup3Args fh name].
Proof.
  unfold cachedLookup_remote.
  pose proof (lookup_state fh name st) as [Ht _].
  destruct (lookup fh name st) as [[[attr fh']|err|] st1]; [|done..].
  simpl in Ht. destruct (Type_ attr =? 2)%Z; [|done].
  destruct (time_Now E (world st1)). done.
Qed.

End CallFacts.

(** ** C1: a status of zero *)

(** C1.  The claim: a status code of zero is success, the translator
    returns no error for it and the call wrapper goes on to decode the
    response.  The code: [NFS3Error] has no case for [NFS3_OK], zero falls
    into [default] and comes back as the error "error: 0"; the wrapper
    then fails, here on the server's successful answer to a LOOKUP. *)
Theorem NFS3Error_zero_is_an_error :
  NFS3Error NFS3_OK = Some (Error "error: 0")
  ∧ (call (Lookup3Args (handle "root") "a") (start (server_at 0) freshTarget)).1
    = Err (Error "error: 0").
Proof. split; reflexivity. Qed.

(** ** C2: the mapping of the other codes *)

(** C2, as stated, fails at code 13: it is not mapped to the
    permission-denied error but to the generic one. *)
Lemma NFS3Error_13_is_generic :
  NFS3Error 13 = Some (Error "error: 13") ∧ NFS3Error 13 ≠ Some ErrPermission.
Proof. split; [reflexivity | discriminate]. Qed.

(** C2, amended.  Code 2 maps to the not-found error, code 17 to the
    already-exists error and code 1 to the permission-denied error; every
    other non-zero code, 13 included, maps to the generic error whose text
    is "error: " followed by the decimal digits of the code, from which
    the code can be read back (9999 gives "error: 9999"). *)
Theorem NFS3Error_mapping (errnum : Z) :
  (0 ≤ errnum ≤ uint32_max)%Z → errnum ≠ 0 →
  (errnum = 2 → NFS3Error errnum = Some ErrNotExist)
  ∧ (errnum = 17 → NFS3Error errnum = Some ErrExist)
  ∧ (errnum = 1 → NFS3Error errnum = Some ErrPermission)
  ∧ (errnum ≠ 2 → errnum ≠ 17 → errnum ≠ 1 →
       NFS3Error errnum = Some (Error ("error: " +:+ fmt_d errnum))
       ∧ parse_d (fmt_d errnum) = Some errnum).
Proof.
  intros [Hlo _] _. repeat split.
  - intros ->. reflexivity.
  - intros ->. reflexivity.
  - intros ->. reflexivity.
  - apply NFS3Error_default; assumption.
  - apply fmt_d_parse, Hlo.
Qed.

Lemma NFS3Error_mapping_witness :
  (0 ≤ 9999 ≤ uint32_max)%Z ∧ (9999 : Z) ≠ 0
  ∧ NFS3Error 9999 = Some (Error "error: 9999")
  ∧ parse_d "9999" = Some 9999.
Proof.
  assert (H1 : (0 ≤ 9999 ≤ uint32_max)%Z) by (unfold uint32_max; lia).
  assert (H2 : (9999 : Z) ≠ 0) by lia.
  split; [exact H1 | split; [exact H2 |]].
  destruct (NFS3Error_mapping 9999 H1 H2) as (_ & _ & _ & H).
  apply H; lia.
Defined.

(** ** C3: expiry of a cache entry *)

Section CacheFacts.
Context {E : Env}.
Implicit Types (st : State E).

(** What a call returns and the world it leaves depend on the world it
    starts in only, not on the cache. *)
Lemma call_world_only (c : Request) st st' :
  world st = world st' →
  (call c st).1 = (call c st').1 ∧ world (call c st).2 = world (call c st').2.
Proof.
  intros Hw. unfold call. rewrite <- Hw.
  destruct (rpc_Call E c (world st)) as [[res|err|] w']; [|done..].
  destruct (xdr_ReadUint32 E res) as [[status res']|err|]; [|done..].
  destruct (NFS3Error status); done.
Qed.

Lemma lookup_world_only (fh : FH) (name : string) st st' :
  world st = world st' →
  (lookup fh name st).1 = (lookup fh name st').1
  ∧ world (lookup fh name st).2 = world (lookup fh name st').2.
Proof.
  intros Hw. unfold lookup. unfold_M.
  destruct (call_world_only (Lookup3Args fh name) st st' Hw) as [Hr Hw'].
  destruct (call (Lookup3Args fh name) st) as [[res|err|] st1];
    destruct (call (Lookup3Args fh name) st') as [[res'|err'|] st1'];
    simpl in *; try discriminate; [|by injection Hr as -> | done].
  injection Hr as ->.
  destruct (xdr_Read_LookupOk E res') as [[lookupres ?]|err|]; done.
Qed.

(** After the cache has been consulted, what is returned is what the
    remote lookup returns: the inner map handed over has no part in it. *)
Lemma cachedLookup_remote_result (fh : FH) (name : string)
    (es : option (gmap string cacheEntry)) st :
  (cachedLookup_remote fh name es st).1 = (lookup fh name st).1.
Proof.
  unfold cachedLookup_remote.
  destruct (lookup fh name st) as [[[attr fh']|err|] st1]; [|done..].
  destruct (Type_ attr =? 2)%Z; [|done].
  by destruct (time_Now E (world st1)).
Qed.

Lemma cachedLookup_remote_world_only (fh : FH) (name : string)
    (es es' : option (gmap string cacheEntry)) st st' :
  world st = world st' →
  world (cachedLookup_remote fh name es st).2
  = world (cachedLookup_remote fh name es' st').2.
Proof.
  intros Hw. unfold cachedLookup_remote.
  destruct (lookup_world_only fh name st st' Hw) as [Hr Hw'].
  destruct (lookup fh name st) as [[[attr fh1]|err|] st1];
    destruct (lookup fh name st') as [[[attr' fh1']|err'|] st1'];
    simpl in *; try discriminate; [|done..].
  injection Hr as -> ->.
  destruct (Type_ attr' =? 2)%Z; [|done].
  rewrite Hw'. by destruct (time_Now E (world st1')).
Qed.

(** C3.  Let the cache hold an entry [e] for [(fh, name)] and let the
    clock read [now] when [cachedLookup] consults it.  If [now] is
    strictly before the expiration of [e], the stored attributes and
    handle are returned, no request is sent and the cache is as it was.
    Otherwise ([now] at or after the expiration) the entry counts for
    nothing: the method goes on exactly as after a miss and sends one
    LOOKUP request; what it returns is what that remote lookup returns,
    not what is stored; and its result, the world it leaves and the
    requests it sends are those of the same call on the cache from which
    the entry has been taken out. *)
Theorem cachedLookup_honours_expiry st (fh : FH) (name : string)
    (es : gmap string cacheEntry) (e : cacheEntry) (now : Z) (w1 : World E) :
  entries (target st) !! parsefh fh = Some es →
  es !! name = Some e →
  time_Now E (world st) = (now, w1) →
  if (now <? ce_expire e)%Z
  then cachedLookup fh name st = (Ok (ce_attr e, ce_fh e), set_world st w1)
  else cachedLookup fh name st
       = cachedLookup_remote fh name (Some es) (set_world st w1)
       ∧ trace (cachedLookup fh name st).2
         = trace st ++ [Lookup3Args fh name]
       ∧ (cachedLookup fh name st).1 = (lookup fh name (set_world st w1)).1
       ∧ let st0 := set_cache (set_world st w1)
                      (<[parsefh fh := delete name es]> (entries (target st))) in
         cache_lookup (entries (target st0)) (parsefh fh) name = None
         ∧ (cachedLookup fh name st).1 = (cachedLookup fh name st0).1
         ∧ world (cachedLookup fh name st).2 = world (cachedLookup fh name st0).2
         ∧ trace (cachedLookup fh name st).2 = trace (cachedLookup fh name st0).2.
Proof.
  intros Hes He Hnow.
  assert (Hstep : cachedLookup fh name st
            = if (now - ce_expire e <? 0)%Z
              then (Ok (ce_attr e, ce_fh e), set_world st w1)
              else cachedLookup_remote fh name (Some es) (set_world st w1)).
  { unfold cachedLookup. rewrite Hes. simpl. rewrite He, Hnow. reflexivity. }
  destruct (Z.ltb_spec now (ce_expire e)) as [Hlt|Hge].
  - rewrite Hstep.
    destruct (Z.ltb_spec (now - ce_expire e) 0); [reflexivity | lia].
  - assert (Hmiss : cachedLookup fh name st
              = cachedLookup_remote fh name (Some es) (set_world st w1)).
    { rewrite Hstep.
      destruct (Z.ltb_spec (now - ce_expire e) 0); [lia | reflexivity]. }
    split; [exact Hmiss |].
    split; [rewrite Hmiss, cachedLookup_remote_trace; reflexivity |].
    split; [rewrite Hmiss; apply cachedLookup_remote_result |].
    intros st0.
    assert (Hnone : cache_lookup (entries (target st0)) (parsefh fh) name = None).
    { unfold st0, cache_lookup. simpl. rewrite lookup_insert_eq. simpl.
      apply lookup_delete_eq. }
    assert (Hmiss0 : cachedLookup fh name st0
              = cachedLookup_remote fh name
                  (entries (target st0) !! parsefh fh) st0).
    { unfold cachedLookup. unfold cache_lookup in Hnone. by rewrite Hnone. }
    split; [exact Hnone |].
    rewrite Hmiss, Hmiss0. split; [|split].
    + rewrite !cachedLookup_remote_result.
      by apply lookup_world_only.
    + by apply cachedLookup_remote_world_only.
    + by rewrite !cachedLookup_remote_trace.
Qed.

(** An entry that is absent is looked up remotely: the miss that an
    expired entry is treated as. *)
Lemma cachedLookup_absent st (fh : FH) (name : string) :
  entries (target st) !! parsefh fh ≫= (λ m, m !! name) = None →
  cachedLookup fh name st
  = cachedLookup_remote fh name (entries (target st) !! parsefh fh) st.
Proof. intros H. unfold cachedLookup. rewrite H. reflexivity. Qed.

End CacheFacts.

Lemma cachedLookup_honours_expiry_witness :
  (* at 99 the entry is served and nothing is sent *)
  cachedLookup (handle "root") "a" (start (server_at 99) cachedTarget)
  = (Ok (dirAttr, handle "a"), start (server_at 99) cachedTarget)
  (* at 100 a LOOKUP is sent and its outcome is returned, not the entry *)
  ∧ trace (cachedLookup (handle "root") "a" (start (server_at 100) cachedTarget)).2
    = [Lookup3Args (handle "root") "a"]
  ∧ (cachedLookup (handle "root") "a" (start (server_at 100) cachedTarget)).1
    = Err (Error "error: 0").
Proof.
  split.
  - exact (cachedLookup_honours_expiry (E := testEnv)
             (start (server_at 99) cachedTarget) (handle "root") "a"
             {[ "a" := mkCacheEntry (handle "a") dirAttr 100 ]}
             (mkCacheEntry (handle "a") dirAttr 100) 99 (server_at 99)
             eq_refl eq_refl eq_refl).
  - pose proof (cachedLookup_honours_expiry (E := testEnv)
             (start (server_at 100) cachedTarget) (handle "root") "a"
             {[ "a" := mkCacheEntry (handle "a") dirAttr 100 ]}
             (mkCacheEntry (handle "a") dirAttr 100) 100 (server_at 100)
             eq_refl eq_refl eq_refl) as H.
    exact (conj (proj1 (proj2 H)) (proj1 (proj2 (proj2 H)))).
Defined.

(** ** What the rejected status does to the methods *)

Section NoSuccess.
Context {E : Env}.
Implicit Types (st : State E).

Lemma lookup_not_Ok (fh : FH) (name : string) st :
  is_Ok (lookup fh name st).1 = false.
Proof.
  unfold lookup. unfold_M.
  pose proof (call_not_Ok (Lookup3Args fh name) st) as Hc.
  destruct (call (Lookup3Args fh name) st) as [[res|err|] st1];
    [discriminate Hc | done..].
Qed.

(** No remote lookup succeeds, so [cachedLookup] never stores anything:
    the cache after it is the cache before it. *)
Lemma cachedLookup_never_caches (fh : FH) (name : string) st :
  entries (target (cachedLookup fh name st).2) = entries (target st).
Proof.
  assert (Hrem : ∀ es st0,
    entries (target (cachedLookup_remote fh name es st0).2)
    = entries (target st0)).
  { intros es st0. unfold cachedLookup_remote.
    pose proof (lookup_not_Ok fh name st0) as Hl.
    pose proof (lookup_state fh name st0) as [_ Ht].
    destruct (lookup fh name st0) as [[[attr fh']|err|] st1];
      [discriminate Hl | simpl in *; congruence..]. }
  unfold cachedLookup.
  destruct (entries (target st) !! parsefh fh ≫= _) as [e|]; [|apply Hrem].
  destruct (time_Now E (world st)) as [now w1].
  destruct (now - ce_expire e <? 0)%Z; [reflexivity | rewrite Hrem; reflexivity].
Qed.

(** The pager never returns a listing. *)
Lemma readDirPlus_not_Ok (fuel : nat) (fh : FH) st :
  is_Ok (readDirPlus fuel fh st).1 = false.
Proof.
  unfold readDirPlus. destruct fuel as [|fuel]; [reflexivity|].
  simpl. unfold_M.
  pose proof (call_not_Ok (ReadDirPlus3Args fh 0 0 512 4096) st) as Hc.
  destruct (call _ st) as [[res|err|] st1]; [discriminate Hc | done..].
Qed.

End NoSuccess.

(** ** C4: which lookups are cached *)

(** C4.  The claim: a component resolved by a remote lookup is cached if
    and only if its attributes say directory.  The code: the server
    resolves [a] under the root, with status 0 and the attributes of a
    directory; [cachedLookup] returns the error "error: 0" and the cache
    stays empty. *)
Theorem cachedLookup_does_not_cache_directory :
  volume (Lookup3Args (handle "root") "a") = lookup_ok "a" dirAttr
  ∧ Type_ dirAttr = 2%Z
  ∧ cachedLookup (handle "root") "a" (start (server_at 0) freshTarget)
    = (Err (Error "error: 0"),
       mkState (server_at 0 : World testEnv) freshTarget
         [Lookup3Args (handle "root") "a"])
  ∧ entries freshTarget = ∅.
Proof. repeat split; reflexivity. Qed.

(** ** C5: the directory pager *)

(** The sample volume lists [a] in two pages: ".", ".." without the
    end-of-listing flag, then "d.txt" with it. *)
Example volume_lists_a_in_two_pages :
  volume (ReadDirPlus3Args (handle "a") 0 0 512 4096)
  = reply_ok [TDirListOK (mkDirListOK noAttr 7);
              item e_dot; item e_dotdot; no_item; TBool false]
  ∧ volume (ReadDirPlus3Args (handle "a") (Cookie e_dotdot) 7 512 4096)
  = reply_ok [TDirListOK (mkDirListOK noAttr 7);
              item e_dtxt; no_item; TBool true]
  ∧ read_entries (E := testEnv) 5 [item e_dot; item e_dotdot; no_item; TBool false] 0 []
    = Ok (Cookie e_dotdot, [e_dot; e_dotdot], [TBool false])
  ∧ read_entries (E := testEnv) 5 [item e_dtxt; no_item; TBool true]
      (Cookie e_dotdot) [e_dot; e_dotdot]
    = Ok (Cookie e_dtxt, [e_dot; e_dotdot; e_dtxt], [TBool true]).
Proof. repeat split; reflexivity. Qed.

(** C5.  The claim: the pager sends one request per page and returns the
    entries of all pages in order, three entries in two calls for a
    directory served in two pages.  The code: on the sample volume the
    first page comes back with status 0, [call] turns it into the error
    "error: 0", and the pager returns that error after one request, for
    any amount of fuel. *)
Theorem readDirPlus_fails_on_first_page (fuel : nat) :
  readDirPlus (S fuel) (handle "a") (start (server_at 0) freshTarget)
  = (Err (Error "error: 0"),
     mkState (server_at 0 : World testEnv) freshTarget
       [ReadDirPlus3Args (handle "a") 0 0 512 4096]).
Proof. reflexivity. Qed.

(** X20.  What the inner loop of the pager does with a page once it has
    one: it appends the entries of the run in order to those of the pages
    before, and leaves the cookie of the last one (the cookie held before
    when the page has no entry). *)
Lemma read_entries_run {E : Env} (res : Reader E) (es : list EntryPlus)
    (res' : Reader E) :
  entry_run res es res' →
  ∀ (fuel : nat) (cookie : Z) (acc : list EntryPlus),
    (length es < fuel)%nat →
    read_entries fuel res cookie acc
    = Ok (last_cookie cookie es, acc ++ es, res').
Proof.
  induction 1 as [res item res' Hrd Hset | res item res1 es res' Hrd Hset _ IH];
    intros fuel cookie acc Hfuel.
  - destruct fuel as [|fuel]; [simpl in Hfuel; lia|].
    simpl. rewrite Hrd, Hset, app_nil_r. reflexivity.
  - destruct fuel as [|fuel]; [simpl in Hfuel; lia|].
    simpl. rewrite Hrd, Hset.
    rewrite IH by (simpl in Hfuel; lia).
    rewrite <- app_assoc. reflexivity.
Qed.

(** ** C6: the easy path of the recursive delete *)

Section RemoveAllFacts.
Context {E : Env}.
Implicit Types (st : State E).

(** The two branches of [RemoveAll] that inspect the error of the plain
    removal: a does-not-exist error is success, a not-a-directory error is
    returned at once; in both nothing is sent after the RMDIR. *)
Lemma RemoveAll_not_exist (fuel : nat) (path : string) st fattr pfh st1 err st2 :
  Lookup (filepath_Split path).1 st = (Ok (fattr, pfh), st1) →
  rmDir pfh (filepath_Split path).2 st1 = (Err err, st2) →
  os_IsNotExist err = true →
  RemoveAll fuel path st = (Ok tt, st2).
Proof.
  intros HL Hrm Hne. unfold RemoveAll.
  destruct (filepath_Split path) as [parentDir deleteDir]. simpl in *.
  unfold_M. rewrite HL, Hrm, Hne. reflexivity.
Qed.

Lemma RemoveAll_not_dir (fuel : nat) (path : string) st fattr pfh st1 err st2 :
  Lookup (filepath_Split path).1 st = (Ok (fattr, pfh), st1) →
  rmDir pfh (filepath_Split path).2 st1 = (Err err, st2) →
  os_IsNotExist err = false →
  IsNotDirError E err = true →
  RemoveAll fuel path st = (Err err, st2).
Proof.
  intros HL Hrm Hne Hnd. unfold RemoveAll.
  destruct (filepath_Split path) as [parentDir deleteDir]. simpl in *.
  unfold_M. rewrite HL, Hrm, Hne, Hnd. reflexivity.
Qed.

End RemoveAllFacts.

(** With the parent served from the cache, the two error branches run as
    described: [a/b] does not exist, [a/d.txt] is a file. *)
Example RemoveAll_error_branches (fuel : nat) :
  RemoveAll fuel "a/b" (start (server_at 50) cachedTarget)
  = (Ok tt, mkState (server_at 50 : World testEnv) cachedTarget
              [RmDir3Args (handle "a") "b"])
  ∧ RemoveAll fuel "a/d.txt" (start (server_at 50) cachedTarget)
  = (Err (Error "error: 20"),
     mkState (server_at 50 : World testEnv) cachedTarget
       [RmDir3Args (handle "a") "d.txt"]).
Proof. split; reflexivity. Qed.

(** C6.  The claim: the plain removal of the leaf is attempted first;
    when it succeeds or the leaf does not exist the operation returns
    success, so that deleting a path that does not exist is no error.
    The code, on a target fresh from [NewTarget]: [a/b] does not exist on
    the volume, yet [RemoveAll] returns the error "error: 0", from the
    server's successful resolution of the parent [a], and sends no RMDIR.
    With the parent served from the cache: the server removes the empty
    directory [e] and answers 0, and [RemoveAll] returns an error. *)
Theorem RemoveAll_fails_where_success_is_due (fuel : nat) :
  RemoveAll fuel "a/b" (start (server_at 0) freshTarget)
  = (Err (Error "error: 0"),
     mkState (server_at 0 : World testEnv) freshTarget
       [Lookup3Args (handle "root") "a"])
  ∧ volume (RmDir3Args (handle "root") "e") = reply_ok []
  ∧ RemoveAll fuel "e" (start (server_at 50) rootCachedTarget)
  = (Err (Error "error: 0"),
     mkState (server_at 50 : World testEnv) rootCachedTarget
       [RmDir3Args (handle "root") "e"; Lookup3Args (handle "root") "e"]).
Proof. repeat split; reflexivity. Qed.

(** ** C7: the recursive walk *)

(** C7.  The claim: for a directory that is not empty the entries are
    listed, "." and ".." skipped, files removed, child directories emptied
    and removed, and the directory itself removed at the end.  The code,
    on the sample volume: [RemoveAll] of [a] (which holds [d.txt]) stops
    with "error: 0" at the resolution of the parent; with the parent
    served from the cache it stops at the lookup of [a] itself; and
    [removeAll] on the handle of [a] stops at the first page of the
    listing.  No REMOVE request is ever sent. *)
Theorem RemoveAll_deletes_nothing (fuel : nat) :
  RemoveAll fuel "a" (start (server_at 0) freshTarget)
  = (Err (Error "error: 0"),
     mkState (server_at 0 : World testEnv) freshTarget
       [Lookup3Args (handle "root") "."])
  ∧ RemoveAll fuel "a" (start (server_at 50) rootCachedTarget)
  = (Err (Error "error: 0"),
     mkState (server_at 50 : World testEnv) rootCachedTarget
       [RmDir3Args (handle "root") "a"; Lookup3Args (handle "root") "a"])
  ∧ removeAll (S (S fuel)) (handle "a") (start (server_at 0) freshTarget)
  = (Err (Error "error: 0"),
     mkState (server_at 0 : World testEnv) freshTarget
       [ReadDirPlus3Args (handle "a") 0 0 512 4096]).
Proof. repeat split; reflexivity. Qed.

(** ** C8: invalidation after a mutation *)

Section MutationFacts.
Context {E : Env}.
Implicit Types (st : State E).

(** The remote call of a mutation fails on every response, so the
    invalidation after it is never reached: [remove] and [rmDir] leave the
    cache as it is. *)
Lemma remove_keeps_cache (fh : FH) (name : string) st :
  is_Ok (remove fh name st).1 = false
  ∧ entries (target (remove fh name st).2) = entries (target st).
Proof.
  unfold remove. unfold_M.
  pose proof (call_not_Ok (RemoveArgs fh name) st) as Hc.
  pose proof (call_state (RemoveArgs fh name) st) as [_ Ht].
  destruct (call _ st) as [[res|err|] st1];
    [discriminate Hc | simpl in *; split; congruence..].
Qed.

Lemma rmDir_keeps_cache (fh : FH) (name : string) st :
  is_Ok (rmDir fh name st).1 = false
  ∧ entries (target (rmDir fh name st).2) = entries (target st).
Proof.
  unfold rmDir. unfold_M.
  pose proof (call_not_Ok (RmDir3Args fh name) st) as Hc.
  pose proof (call_state (RmDir3Args fh name) st) as [_ Ht].
  destruct (call _ st) as [[res|err|] st1];
    [discriminate Hc | simpl in *; split; congruence..].
Qed.

End MutationFacts.

(** C8.  The claim: when a mutation succeeds the cached entry of the
    affected name is invalidated, so that the next resolution of the name
    asks the server.  The code: the cache holds the directory [e] under
    the root; the server removes [e] and answers 0; [RmDir] returns the
    error "error: 0" and the entry stays, and the next [Lookup] of [e] is
    answered from the cache with the handle of the removed directory and
    without a request.  [Mkdir] of [b], created by the server with status
    0, returns the same error. *)
Theorem RmDir_success_leaves_stale_entry :
  volume (RmDir3Args (handle "root") "e") = reply_ok []
  ∧ RmDir "e" (start (server_at 50) rootCachedTarget)
    = (Err (Error "error: 0"),
       mkState (server_at 50 : World testEnv) rootCachedTarget
         [RmDir3Args (handle "root") "e"])
  ∧ Lookup "e" (mkState (server_at 50 : World testEnv) rootCachedTarget
                  [RmDir3Args (handle "root") "e"])
    = (Ok (Some dirAttr, handle "e"),
       mkState (server_at 50 : World testEnv) rootCachedTarget
         [RmDir3Args (handle "root") "e"])
  ∧ Mkdir "b" 493 (start (server_at 50) rootCachedTarget)
    = (Err (Error "error: 0"),
       mkState (server_at 50 : World testEnv) rootCachedTarget
         [MkdirArgs (handle "root") "b" 493]).
Proof. repeat split; reflexivity. Qed.

(** ** C10: a child directory listed without a handle *)

Section RemoveAllLoop.
Context {E : Env}.
Implicit Types (st : State E).

Lemma invalidateEntryCache_trace (fh : FH) (name : string) st :
  trace (invalidateEntryCache fh name st).2 = trace st.
Proof.
  unfold invalidateEntryCache.
  destruct (entries (target st) !! parsefh fh); reflexivity.
Qed.

Lemma rmDir_trace (fh : FH) (name : string) st :
  trace (rmDir fh name st).2 = trace st ++ [RmDir3Args fh name].
Proof.
  unfold rmDir. unfold_M.
  pose proof (call_state (RmDir3Args fh name) st) as [Ht _].
  destruct (call _ st) as [[res|err|] st1]; simpl in *; [|done..].
  rewrite invalidateEntryCache_trace. exact Ht.
Qed.

Lemma remove_trace (fh : FH) (name : string) st :
  trace (remove fh name st).2 = trace st ++ [RemoveArgs fh name].
Proof.
  unfold remove. unfold_M.
  pose proof (call_state (RemoveArgs fh name) st) as [Ht _].
  destruct (call _ st) as [[res|err|] st1]; simpl in *; [|done..].
  rewrite invalidateEntryCache_trace. exact Ht.
Qed.

(** The other branches of the loop: "." and ".." are passed over without
    a request; an entry that is not a directory is removed with [remove];
    a directory with a handle is emptied by the recursive call before its
    [rmDir]; the first error ends the loop. *)
Lemma removeAll_entries_skips_dots (rec : FH → M E unit) (fh : FH)
    (ent : EntryPlus) (rest : list EntryPlus) st :
  FileName ent = "." ∨ FileName ent = ".." →
  removeAll_entries rec fh (ent :: rest) st = removeAll_entries rec fh rest st.
Proof. intros [H|H]; simpl; rewrite H; reflexivity. Qed.

Lemma removeAll_entries_file (rec : FH → M E unit) (fh : FH)
    (ent : EntryPlus) (rest : list EntryPlus) st :
  FileName ent ≠ "." → FileName ent ≠ ".." →
  Type_ (Attr (EAttr ent)) ≠ NF3Dir →
  removeAll_entries rec fh (ent :: rest) st
  = (_ ← remove fh (FileName ent); removeAll_entries rec fh rest) st.
Proof.
  intros Hdot Hdotdot Hfile. simpl.
  apply String.eqb_neq in Hdot, Hdotdot. rewrite Hdot, Hdotdot. simpl.
  apply Z.eqb_neq in Hfile. rewrite Hfile. reflexivity.
Qed.

Lemma removeAll_entries_dir_with_handle (rec : FH → M E unit) (fh : FH)
    (ent : EntryPlus) (rest : list EntryPlus) st :
  FileName ent ≠ "." → FileName ent ≠ ".." →
  Type_ (Attr (EAttr ent)) = NF3Dir →
  FH_IsSet (Handle ent) = true →
  removeAll_entries rec fh (ent :: rest) st
  = (_ ← rec (FH_ (Handle ent));
     _ ← rmDir fh (FileName ent);
     removeAll_entries rec fh rest) st.
Proof.
  intros Hdot Hdotdot Hdir Hfh. simpl.
  apply String.eqb_neq in Hdot, Hdotdot. rewrite Hdot, Hdotdot. simpl.
  rewrite Hdir, Z.eqb_refl, Hfh. unfold_M.
  destruct (rec (FH_ (Handle ent)) st) as [[[]|err|] st1]; reflexivity.
Qed.

(** X25.  In the loop of [removeAll] over the listed entries, let the
    next entry be neither "." nor "..", have the attributes of a directory
    and no handle.  Then the loop does not recurse into it: what it does
    next is the plain [rmDir] of that name under the current directory,
    which sends one RMDIR request, and when that removal fails (as it does
    for a directory that is not empty) the loop stops with its error. *)
Theorem removeAll_entries_dir_without_handle (fuel : nat) (fh : FH)
    (ent : EntryPlus) (rest : list EntryPlus) st :
  FileName ent ≠ "." → FileName ent ≠ ".." →
  Type_ (Attr (EAttr ent)) = NF3Dir →
  FH_IsSet (Handle ent) = false →
  removeAll_entries (removeAll fuel) fh (ent :: rest) st
  = (_ ← rmDir fh (FileName ent);
     removeAll_entries (removeAll fuel) fh rest) st
  ∧ trace (rmDir fh (FileName ent) st).2
    = trace st ++ [RmDir3Args fh (FileName ent)]
  ∧ ∀ err st1, rmDir fh (FileName ent) st = (Err err, st1) →
      removeAll_entries (removeAll fuel) fh (ent :: rest) st = (Err err, st1).
Proof.
  intros Hdot Hdotdot Hdir Hnofh.
  assert (Heq : removeAll_entries (removeAll fuel) fh (ent :: rest) st
    = (_ ← rmDir fh (FileName ent);
       removeAll_entries (removeAll fuel) fh rest) st).
  { simpl.
    apply String.eqb_neq in Hdot, Hdotdot. rewrite Hdot, Hdotdot. simpl.
    rewrite Hdir, Z.eqb_refl, Hnofh. unfold_M.
    destruct (rmDir fh (FileName ent) st) as [[[]|err|] st1]; reflexivity. }
  split; [exact Heq|]. split; [apply rmDir_trace|].
  intros err st1 Hrm. rewrite Heq. unfold_M. rewrite Hrm. reflexivity.
Qed.

End RemoveAllLoop.

Lemma removeAll_entries_dir_without_handle_witness :
  FileName a_without_handle ≠ "." ∧ FileName a_without_handle ≠ ".."
  ∧ Type_ (Attr (EAttr a_without_handle)) = NF3Dir
  ∧ FH_IsSet (Handle a_without_handle) = false
  ∧ removeAll_entries (removeAll 3) (handle "root") [a_without_handle]
      (start (server_at 0) freshTarget)
    = (Err (Error "error: 66"),
       mkState (server_at 0 : World testEnv) freshTarget
         [RmDir3Args (handle "root") "a"]).
Proof.
  assert (H1 : FileName a_without_handle ≠ ".") by discriminate.
  assert (H2 : FileName a_without_handle ≠ "..") by discriminate.
  split; [exact H1|]. split; [exact H2|].
  split; [reflexivity|]. split; [reflexivity|].
  exact (proj2 (proj2 (removeAll_entries_dir_without_handle (E := testEnv)
           3 (handle "root") a_without_handle []
           (start (server_at 0) freshTarget) H1 H2 eq_refl eq_refl))
         (Error "error: 66")
         (mkState (server_at 0 : World testEnv) freshTarget
            [RmDir3Args (handle "root") "a"])
         eq_refl).
Defined.

(** C10.  The claim: a listed child that is a directory without a handle
    is not recursed into, and its plain rmdir is attempted directly under
    the current directory.  The code: the server lists [p] with the child
    directory [sub], which has no handle; [removeAll] on the handle of [p]
    gets that page with status 0, turns it into the error "error: 0" and
    returns after the one READDIRPLUS request, and [RemoveAll] of [p] with
    the root served from the cache stops at the lookup of [p]: no RMDIR of
    [sub] is ever sent. *)
Theorem removeAll_never_attempts_rmdir (fuel : nat) :
  volume_p (ReadDirPlus3Args (handle "p") 0 0 512 4096)
  = reply_ok [TDirListOK (mkDirListOK noAttr 9);
              item p_dot; item p_dotdot; item sub_without_handle;
              no_item; TBool true]
  ∧ Type_ (Attr (EAttr sub_without_handle)) = NF3Dir
  ∧ FH_IsSet (Handle sub_without_handle) = false
  ∧ removeAll (S (S fuel)) (handle "p") (start (server_p 0) freshTarget)
    = (Err (Error "error: 0"),
       mkState (server_p 0 : World testEnv) freshTarget
         [ReadDirPlus3Args (handle "p") 0 0 512 4096])
  ∧ RemoveAll fuel "p" (start (server_p 50) rootCachedTarget)
    = (Err (Error "error: 0"),
       mkState (server_p 50 : World testEnv) rootCachedTarget
         [RmDir3Args (handle "root") "p"; Lookup3Args (handle "root") "p"]).
Proof. repeat split; reflexivity. Qed.

(** ** C9: the bound of one sweep *)

Lemma sweep_bucket_bound (now : Z) (fh : string) (names : list string)
    (es : gmap string cacheEntry) (ents : cache) (cnt : Z) :
  (cnt ≤ 1000)%Z →
  (cnt ≤ (sweep_bucket now fh names es ents cnt).1.2 ≤ 1001)%Z
  ∧ ((sweep_bucket now fh names es ents cnt).2 = false →
     ((sweep_bucket now fh names es ents cnt).1.2 ≤ 1000)%Z).
Proof.
  revert es ents cnt.
  induction names as [|n names IH]; intros es ents cnt Hcnt; simpl.
  - split; [lia | intros _; lia].
  - destruct (es !! n) as [e|]; [|apply IH, Hcnt].
    destruct (if (ce_expire e <? now)%Z then _ else _) as [es1 ents1].
    destruct (Z.ltb_spec 1000 (cnt + 1)) as [Hbrk|Hgo]; simpl.
    + split; [lia | discriminate].
    + destruct (IH es1 ents1 (cnt + 1)%Z Hgo) as [[H1 H2] H3].
      split; [lia | exact H3].
Qed.

(** Whatever the order of the iteration, a pass stops with its counter
    at 1001 at the latest. *)
Lemma sweep_bound (now : Z) (order : list (string * list string))
    (ents : cache) (cnt : Z) :
  (cnt ≤ 1000)%Z → (cnt ≤ (sweep now order ents cnt).2 ≤ 1001)%Z.
Proof.
  revert ents cnt.
  induction order as [|[fh names] order IH]; intros ents cnt Hcnt; simpl.
  - lia.
  - destruct (ents !! fh) as [es|]; [|apply IH, Hcnt].
    pose proof (sweep_bucket_bound now fh names es ents cnt Hcnt) as [Hb Hnb].
    destruct (sweep_bucket now fh names es ents cnt) as [[ents1 cnt1] brk].
    simpl in *. destruct brk; simpl; [lia|].
    specialize (IH ents1 cnt1 (Hnb eq_refl)). lia.
Qed.

(** An inner loop that meets every name of [es], all of them expired,
    with room for them below 1001: it inspects each one, empties the map
    and removes its key. *)
Lemma sweep_bucket_all_expired (now : Z) (fh : string) (names : list string) :
  ∀ (es : gmap string cacheEntry) (ents : cache) (cnt : Z),
  names ≠ [] →
  NoDup names →
  (∀ n, n ∈ names ↔ is_Some (es !! n)) →
  (∀ n e, es !! n = Some e → (ce_expire e < now)%Z) →
  (cnt + Z.of_nat (length names) ≤ 1001)%Z →
  sweep_bucket now fh names es ents cnt
  = (delete fh ents, (cnt + Z.of_nat (length names))%Z,
     (1000 <? cnt + Z.of_nat (length names))%Z).
Proof.
  induction names as [|n names IH]; intros es ents cnt Hne Hnd Hdom Hexp Hlen;
    [done|].
  apply NoDup_cons in Hnd as [Hn Hnd].
  destruct (proj1 (Hdom n)) as [e He]; [left|].
  assert (Hdom1 : ∀ m, m ∈ names ↔ is_Some (delete n es !! m)).
  { intros m. rewrite lookup_delete_is_Some, <- Hdom, elem_of_cons.
    split; [intros Hm; split; [congruence | by right] | intros [? [?|?]]; done]. }
  assert (Hexp1 : ∀ m e', delete n es !! m = Some e' → (ce_expire e' < now)%Z).
  { intros m e' Hm. apply lookup_delete_Some in Hm as [_ Hm]. eauto. }
  cbn [sweep_bucket length]. rewrite He.
  destruct (Z.ltb_spec (ce_expire e) now) as [_|Hge];
    [|specialize (Hexp n e He); lia].
  destruct names as [|n' names'].
  - assert (Hempty : delete n es = ∅).
    { apply map_eq. intros m. rewrite lookup_empty.
      apply eq_None_not_Some. rewrite <- Hdom1. apply not_elem_of_nil. }
    rewrite Hempty, map_size_empty. simpl.
    change (Z.of_nat 1) with 1%Z.
    destruct (1000 <? cnt + 1)%Z; reflexivity.
  - assert (Hsize : (Z.of_nat (size (delete n es)) =? 0)%Z = false).
    { apply Z.eqb_neq. intros Hz.
      assert (Hz' : size (delete n es) = 0%nat) by lia.
      apply map_size_empty_iff in Hz'.
      destruct (proj1 (Hdom1 n')) as [x Hx]; [left|].
      rewrite Hz', lookup_empty in Hx. discriminate. }
    rewrite Hsize.
    cbn [length] in Hlen.
    destruct (Z.ltb_spec 1000 (cnt + 1)) as [Hbrk|Hgo]; [lia|].
    rewrite (IH (delete n es) _ (cnt + 1)%Z); [| done | done | done | done |
      cbn [length]; lia].
    rewrite delete_insert_eq. cbn [length].
    replace (cnt + 1 + Z.of_nat (S (length names')))%Z
      with (cnt + Z.of_nat (S (S (length names'))))%Z by lia.
    reflexivity.
Qed.

Lemma bigBucket_size : size bigBucket = 1001%nat.
Proof. vm_compute. reflexivity. Qed.

Lemma bigBucket_expired (n : string) (e : cacheEntry) :
  bigBucket !! n = Some e → (ce_expire e < 1)%Z.
Proof.
  intros H. apply elem_of_list_to_map_2 in H.
  apply list_elem_of_fmap in H as (m & Heq & _).
  inversion Heq. simpl. lia.
Qed.

(** In whatever order the inner loop meets the 1001 names, the pass at
    instant 1 inspects all of them and leaves the cache empty. *)
Lemma sweep_bigBucket_any_order (names : list string) :
  NoDup names →
  (∀ n, n ∈ names ↔ is_Some (bigBucket !! n)) →
  sweep 1 [("root", names)] {[ "root" := bigBucket ]} 0 = (∅, 1001%Z).
Proof.
  intros Hnd Hdom.
  assert (Hlen : length names = 1001%nat).
  { rewrite <- bigBucket_size, <- length_map_to_list.
    rewrite <- (length_fmap fst (map_to_list bigBucket)).
    apply Permutation_length, NoDup_Permutation;
      [exact Hnd | apply NoDup_fst_map_to_list |].
    intros n. rewrite Hdom. split.
    - intros [e He]. apply list_elem_of_fmap. exists (n, e).
      split; [reflexivity | by apply elem_of_map_to_list].
    - intros H. apply list_elem_of_fmap in H as ([n' e] & -> & H).
      apply elem_of_map_to_list in H. eauto. }
  cbn [sweep]. rewrite lookup_singleton_eq.
  rewrite (sweep_bucket_all_expired 1 "root" names bigBucket _ 0);
    [| intros ->; discriminate Hlen | exact Hnd | exact Hdom
     | exact bigBucket_expired | rewrite Hlen; lia].
  rewrite Hlen, delete_singleton_eq. reflexivity.
Qed.

(** The same for every order that a [range] over this cache can take. *)
Lemma sweep_bigTarget_any_order (order : list (string * list string)) :
  range_order (entries bigTarget) order →
  sweep 1 order (entries bigTarget) 0 = (∅, 1001%Z).
Proof.
  intros (Hnd & Hkeys & Hnames). simpl in *.
  assert (Hroot : ∀ fh, fh ∈ order.*1 → fh = "root").
  { intros fh Hfh. apply Hkeys in Hfh as [es Hes].
    apply lookup_singleton_Some in Hes as [-> _]. reflexivity. }
  assert (Hin : "root" ∈ order.*1).
  { apply Hkeys. rewrite lookup_singleton_eq. eauto. }
  destruct order as [|[fh1 names1] [|[fh2 names2] order]]; simpl in *.
  - by apply not_elem_of_nil in Hin.
  - rewrite (Hroot fh1) in * by left.
    destruct (Hnames "root" names1 bigBucket) as [Hnd1 Hdom1];
      [left | apply lookup_singleton_eq |].
    by apply sweep_bigBucket_any_order.
  - exfalso. apply NoDup_cons in Hnd as [Hnotin _]. apply Hnotin.
    rewrite (Hroot fh1) by left. rewrite <- (Hroot fh2) by (right; left). left.
Qed.

Lemma names1001_NoDup : NoDup names1001.
Proof.
  unfold names1001. apply NoDup_fmap_2_strong; [|apply NoDup_seq].
  intros i j _ _ Heq. apply fmt_d_inj in Heq; lia.
Qed.

(** The order used below is one of them. *)
Lemma names1001_range_order :
  range_order (entries bigTarget) [("root", names1001)].
Proof.
  assert (Hfst : (map (λ n, (n, mkCacheEntry (handle n) dirAttr 0)) names1001).*1
                 = names1001).
  { rewrite <- list_fmap_compose. apply list_fmap_id. }
  split; [|split]; simpl.
  - apply NoDup_singleton.
  - intros fh. rewrite list_elem_of_singleton. split.
    + intros ->. rewrite lookup_singleton_eq. eauto.
    + intros [es Hes]. apply lookup_singleton_Some in Hes as [<- _]. reflexivity.
  - intros fh names es Hin Hes.
    apply list_elem_of_singleton in Hin. injection Hin as -> ->.
    rewrite lookup_singleton_eq in Hes. injection Hes as <-.
    split; [apply names1001_NoDup|].
    intros n. unfold bigBucket. split.
    + intros Hn. exists (mkCacheEntry (handle n) dirAttr 0).
      apply elem_of_list_to_map_1.
      * rewrite Hfst. apply names1001_NoDup.
      * apply list_elem_of_fmap. exists n. split; [reflexivity | exact Hn].
    + intros [e He]. apply elem_of_list_to_map_2 in He.
      apply list_elem_of_fmap in He as (m & Heq & Hm).
      injection Heq as -> _. exact Hm.
Qed.

(** C9.  The claim: one pass inspects at most 1000 entries.  The code:
    the counter is raised after an entry has been inspected and the loop
    is left when it exceeds 1000, so the entry that raises it to 1001 has
    been inspected, and deleted, before the pass stops.  On the cache of
    1001 expired entries one pass inspects 1001 entries and deletes them
    all. *)
Theorem cleanupCache_pass_inspects_1001 :
  size bigBucket = 1001%nat
  ∧ (cleanupCache_pass [("root", names1001)] (start (server_at 1) bigTarget)).1
    = Ok 1001%Z
  ∧ entries (target (cleanupCache_pass [("root", names1001)]
                       (start (server_at 1) bigTarget)).2) = ∅.
Proof. vm_compute. repeat split; reflexivity. Qed.

(** X24.  Whatever the cache and the order of the walk, a pass stops with
    its counter between 0 and 1001: it never inspects more than 1001
    entries. *)
Lemma cleanupCache_pass_bound {E : Env} (order : list (string * list string))
    (st : State E) :
  ∃ cnt, (cleanupCache_pass order st).1 = Ok cnt ∧ (0 ≤ cnt ≤ 1001)%Z.
Proof.
  unfold cleanupCache_pass.
  destruct (time_Now E (world st)) as [now w1].
  pose proof (sweep_bound now order (entries (target st)) 0 ltac:(lia)) as Hb.
  destruct (sweep now order (entries (target st)) 0) as [ents cnt].
  exists cnt. split; [reflexivity | exact Hb].
Qed.

(** * Further properties of the code *)

(** ** The status translator and the call wrapper *)

(** X1.  Two different status codes are never translated to the same
    error: the error returned identifies the code. *)
Theorem NFS3Error_distinct (n m : Z) :
  (0 ≤ n)%Z → (0 ≤ m)%Z → n ≠ m → NFS3Error n ≠ NFS3Error m.
Proof.
  intros Hn Hm Hne Heq. apply Hne. clear Hne.
  assert (Hcases : ∀ k, (k = 1 ∨ k = 17 ∨ k = 2)%Z
            ∨ NFS3Error k = Some (Error ("error: " +:+ fmt_d k))).
  { intros k.
    destruct (decide (k = 1%Z)); [by left; left|].
    destruct (decide (k = 17%Z)); [by left; right; left|].
    destruct (decide (k = 2%Z)); [by left; right; right|].
    right. by apply NFS3Error_default. }
  destruct (Hcases n) as [[->|[->| ->]]|Hgn];
    destruct (Hcases m) as [[->|[->| ->]]|Hgm];
    try reflexivity; try discriminate Heq;
    try (rewrite Hgm in Heq; discriminate Heq);
    try (rewrite Hgn in Heq; discriminate Heq).
  rewrite Hgn, Hgm in Heq. injection Heq as Heq.
  apply String.app_inj in Heq. by apply fmt_d_inj.
Qed.

Lemma NFS3Error_distinct_witness :
  NFS3Error NFS3ERR_NOTDIR ≠ NFS3Error NFS3ERR_NOTEMPTY.
Proof.
  apply NFS3Error_distinct; unfold NFS3ERR_NOTDIR, NFS3ERR_NOTEMPTY; lia.
Defined.

(** X2.  The only status code whose translation [os.IsNotExist]
    recognises is 2 (NFS3ERR_NOENT). *)
Theorem NFS3Error_IsNotExist_iff (n : Z) :
  from_option os_IsNotExist false (NFS3Error n) = true ↔ n = NFS3ERR_NOENT.
Proof.
  unfold NFS3Error.
  destruct (Z.eqb_spec n NFS3ERR_PERM) as [->|?]; [done|].
  destruct (Z.eqb_spec n NFS3ERR_EXIST) as [->|?]; [done|].
  destruct (Z.eqb_spec n NFS3ERR_NOENT) as [->|?]; done.
Qed.

(** X3.  In every environment and for every request, [call] returns no
    response stream; it hands exactly that request to the transport and
    leaves the target, its cache included, as it was. *)
Theorem call_always_fails {E : Env} (c : Request) (st : State E) :
  is_Ok (call c st).1 = false
  ∧ trace (call c st).2 = trace st ++ [c]
  ∧ target (call c st).2 = target st.
Proof.
  split; [apply call_not_Ok | apply call_state].
Qed.


(** X5.  The cache key of a handle is its exact byte value: two handles
    have the same key only when they are the same bytes. *)
Theorem parsefh_eq_iff (fh1 fh2 : FH) : parsefh fh1 = parsefh fh2 ↔ fh1 = fh2.
Proof.
  split; [|by intros ->]. unfold parsefh. intros Heq.
  rewrite <- (list_byte_of_string_of_list_byte fh1),
          <- (list_byte_of_string_of_list_byte fh2).
  by rewrite Heq.
Qed.

(** ** The entry cache *)

Section CacheExtra.
Context {E : Env}.
Implicit Types (st : State E).

Lemma invalidateEntryCache_entries (fh : FH) (name : string) st :
  entries (target (invalidateEntryCache fh name st).2)
  = alter (delete name) (parsefh fh) (entries (target st)).
Proof.
  unfold invalidateEntryCache. apply map_eq. intros ino.
  destruct (entries (target st) !! parsefh fh) as [es|] eqn:Hes; simpl.
  - destruct (decide (parsefh fh = ino)) as [<-|Hne].
    + by rewrite lookup_insert_eq, lookup_alter_eq, Hes.
    + by rewrite lookup_insert_ne, lookup_alter_ne.
  - destruct (decide (parsefh fh = ino)) as [<-|Hne].
    + by rewrite lookup_alter_eq, Hes.
    + by rewrite lookup_alter_ne.
Qed.

(** X6.  After [invalidateEntryCache] the cache has no entry for the
    name under that handle, and the next [cachedLookup] of it sends a
    LOOKUP request whatever the clock reads. *)
Theorem invalidate_then_cachedLookup_is_remote (fh : FH) (name : string) st :
  let st1 := (invalidateEntryCache fh name st).2 in
  cache_lookup (entries (target st1)) (parsefh fh) name = None
  ∧ trace (cachedLookup fh name st1).2 = trace st ++ [Lookup3Args fh name].
Proof.
  intros st1.
  assert (Hnone : cache_lookup (entries (target st1)) (parsefh fh) name = None).
  { unfold st1, cache_lookup. rewrite invalidateEntryCache_entries.
    rewrite lookup_alter_eq.
    destruct (entries (target st) !! parsefh fh) as [es|]; simpl; [|done].
    apply lookup_delete_eq. }
  split; [exact Hnone|].
  rewrite cachedLookup_absent by exact Hnone.
  rewrite cachedLookup_remote_trace. unfold st1.
  by rewrite invalidateEntryCache_trace.
Qed.

(** X7.  [invalidateEntryCache] removes nothing else: the entry of every
    other name, under this or another handle, is what it was, and neither
    the world nor the log of requests changes. *)
Theorem invalidateEntryCache_frame (fh : FH) (name ino' name' : string) st :
  (ino', name') ≠ (parsefh fh, name) →
  let st1 := (invalidateEntryCache fh name st).2 in
  cache_lookup (entries (target st1)) ino' name'
  = cache_lookup (entries (target st)) ino' name'
  ∧ world st1 = world st ∧ trace st1 = trace st.
Proof.
  intros Hne st1. split.
  - unfold st1, cache_lookup. rewrite invalidateEntryCache_entries.
    destruct (decide (parsefh fh = ino')) as [<-|Hino].
    + rewrite lookup_alter_eq.
      destruct (entries (target st) !! parsefh fh) as [es|]; simpl; [|done].
      apply lookup_delete_ne. congruence.
    + by rewrite lookup_alter_ne.
  - unfold st1, invalidateEntryCache.
    destruct (entries (target st) !! parsefh fh); done.
Qed.

(** X8.  [invalidateEntryCache] neither creates nor removes a parent key:
    the inner map of the handle loses the name and stays in the cache,
    empty if that was its last name. *)
Theorem invalidateEntryCache_keeps_keys (fh : FH) (name : string) st :
  let c1 := entries (target (invalidateEntryCache fh name st).2) in
  dom c1 = dom (entries (target st))
  ∧ c1 !! parsefh fh = delete name <$> entries (target st) !! parsefh fh.
Proof.
  intros c1. unfold c1. rewrite invalidateEntryCache_entries. split.
  - apply dom_alter_L.
  - apply lookup_alter_eq.
Qed.

End CacheExtra.

Lemma invalidateEntryCache_frame_witness :
  cache_lookup
    (entries (target (invalidateEntryCache (handle "root") "e"
                        (start (server_at 0) rootCachedTarget)).2))
    (parsefh (handle "root")) "."
  = Some (mkCacheEntry (handle "root") dirAttr 100).
Proof.
  assert (Hne : (parsefh (handle "root"), ".")
                ≠ (parsefh (handle "root"), "e")) by discriminate.
  exact (proj1 (invalidateEntryCache_frame (E := testEnv) (handle "root") "e"
                  (parsefh (handle "root")) "."
                  (start (server_at 0) rootCachedTarget) Hne)).
Defined.

(** ** The janitor *)

Lemma swept_refl (now : Z) (c : cache) : swept now c c.
Proof.
  split.
  - intros ino es' H. exists es'. by repeat split.
  - intros ino es H1 H2. congruence.
Qed.

Lemma swept_trans (now : Z) (c1 c2 c3 : cache) :
  swept now c1 c2 → swept now c2 c3 → swept now c1 c3.
Proof.
  intros [Ha1 Ha2] [Hb1 Hb2]. split.
  - intros ino es3 H3.
    destruct (Hb1 ino es3 H3) as (es2 & H2 & Hsub2 & Hk2).
    destruct (Ha1 ino es2 H2) as (es1 & H1 & Hsub1 & Hk1).
    exists es1. split; [done|]. split; [by etrans|]. eauto.
  - intros ino es1 H1 H3.
    destruct (c2 !! ino) as [es2|] eqn:H2; [|by eapply Ha2].
    destruct (Hb2 ino es2 H2 H3) as [Hne Hexp].
    destruct (Ha1 ino es2 H2) as (es1' & H1' & Hsub & Hk).
    assert (es1' = es1) as -> by congruence.
    split.
    + intros ->. apply Hne. apply map_eq. intros n.
      rewrite lookup_empty. apply eq_None_not_Some. intros [e He].
      eapply lookup_weaken in He; [|exact Hsub]. by rewrite lookup_empty in He.
    + intros n e He.
      destruct (Z.lt_ge_cases (ce_expire e) now) as [?|Hge]; [done|].
      specialize (Hexp n e (Hk n e He Hge)). lia.
Qed.

(** The inner loop over an empty map does nothing. *)
Lemma sweep_bucket_empty (now : Z) (fh : string) (names : list string)
    (ents : cache) (cnt : Z) :
  sweep_bucket now fh names ∅ ents cnt = (ents, cnt, false).
Proof.
  induction names as [|n names IH]; simpl; [done|].
  by rewrite lookup_empty.
Qed.

Lemma swept_delete_entry (now : Z) (fh n : string) (e : cacheEntry)
    (es : gmap string cacheEntry) (ents : cache) :
  ents !! fh = Some es → es !! n = Some e → (ce_expire e < now)%Z →
  swept now ents (if (Z.of_nat (size (delete n es)) =? 0)%Z
                  then delete fh ents else <[fh := delete n es]> ents).
Proof.
  intros Hfh Hn Hexp.
  destruct (Z.eqb_spec (Z.of_nat (size (delete n es))) 0) as [Hz|Hnz].
  - assert (Hempty : delete n es = ∅) by (apply map_size_empty_iff; lia).
    split.
    + intros ino es' H. apply lookup_delete_Some in H as [Hne H].
      exists es'. by repeat split.
    + intros ino es0 H0 Hnone.
      destruct (decide (fh = ino)) as [<-|Hne];
        [|by rewrite lookup_delete_ne, H0 in Hnone].
      assert (es0 = es) as -> by congruence.
      split; [intros ->; by rewrite lookup_empty in Hn|].
      intros m e' Hm. destruct (decide (n = m)) as [<-|Hnm]; [congruence|].
      assert (H : delete n es !! m = Some e') by by rewrite lookup_delete_ne.
      by rewrite Hempty, lookup_empty in H.
  - split.
    + intros ino es' H. destruct (decide (fh = ino)) as [<-|Hne].
      * rewrite lookup_insert_eq in H. injection H as <-.
        exists es. split; [done|]. split; [apply delete_subseteq|].
        intros m e' Hm Hge. rewrite lookup_delete_ne; [done|].
        intros <-. assert (e' = e) as -> by congruence. lia.
      * rewrite lookup_insert_ne in H by done.
        exists es'. by repeat split.
    + intros ino es0 H0 Hnone. destruct (decide (fh = ino)) as [<-|Hne].
      * by rewrite lookup_insert_eq in Hnone.
      * rewrite lookup_insert_ne in Hnone by done. congruence.
Qed.

Lemma sweep_bucket_swept (now : Z) (fh : string) (names : list string) :
  ∀ (es : gmap string cacheEntry) (ents : cache) (cnt : Z),
  ents !! fh = Some es →
  swept now ents (sweep_bucket now fh names es ents cnt).1.1.
Proof.
  induction names as [|n names IH]; intros es ents cnt Hfh; simpl.
  - apply swept_refl.
  - destruct (es !! n) as [e|] eqn:Hn; [|by apply IH].
    destruct (Z.ltb_spec (ce_expire e) now) as [Hexp|Hge].
    + pose proof (swept_delete_entry now fh n e es ents Hfh Hn Hexp) as Hsw.
      destruct (1000 <? cnt + 1)%Z; [exact Hsw|].
      destruct (Z.eqb_spec (Z.of_nat (size (delete n es))) 0) as [Hz|Hnz].
      * assert (Hempty : delete n es = ∅) by (apply map_size_empty_iff; lia).
        rewrite Hempty, sweep_bucket_empty. exact Hsw.
      * eapply swept_trans; [exact Hsw|].
        apply IH. apply lookup_insert_eq.
    + destruct (1000 <? cnt + 1)%Z; [apply swept_refl | by apply IH].
Qed.

Lemma sweep_swept (now : Z) (order : list (string * list string)) :
  ∀ (ents : cache) (cnt : Z), swept now ents (sweep now order ents cnt).1.
Proof.
  induction order as [|[fh names] order IH]; intros ents cnt; simpl.
  - apply swept_refl.
  - destruct (ents !! fh) as [es|] eqn:Hfh; [|apply IH].
    pose proof (sweep_bucket_swept now fh names es ents cnt Hfh) as Hsw.
    destruct (sweep_bucket now fh names es ents cnt) as [[ents1 cnt1] brk].
    simpl in Hsw. destruct brk; [exact Hsw|].
    eapply swept_trans; [exact Hsw | apply IH].
Qed.

Lemma cleanupCache_pass_entries {E : Env} (order : list (string * list string))
    (st : State E) :
  entries (target (cleanupCache_pass order st).2)
  = (sweep (time_Now E (world st)).1 order (entries (target st)) 0).1.
Proof.
  unfold cleanupCache_pass. destruct (time_Now E (world st)) as [now w1].
  simpl. by destruct (sweep now order (entries (target st)) 0).
Qed.

Lemma cleanupCache_pass_swept {E : Env} (order : list (string * list string))
    (st : State E) :
  swept (time_Now E (world st)).1 (entries (target st))
    (entries (target (cleanupCache_pass order st).2)).
Proof. rewrite cleanupCache_pass_entries. apply sweep_swept. Qed.

Lemma sweep_bucket_complete (now : Z) (fh : string) (names : list string) :
  ∀ (es : gmap string cacheEntry) (ents : cache) (cnt : Z),
  ents !! fh = Some es →
  (∀ n e, es !! n = Some e → (ce_expire e < now)%Z → n ∈ names) →
  (cnt + Z.of_nat (length names) ≤ 1000)%Z →
  (sweep_bucket now fh names es ents cnt).2 = false
  ∧ (cnt ≤ (sweep_bucket now fh names es ents cnt).1.2
         ≤ cnt + Z.of_nat (length names))%Z
  ∧ (∀ ino, ino ≠ fh →
       (sweep_bucket now fh names es ents cnt).1.1 !! ino = ents !! ino)
  ∧ (∀ es' n e, (sweep_bucket now fh names es ents cnt).1.1 !! fh = Some es' →
       es' !! n = Some e → (now ≤ ce_expire e)%Z).
Proof.
  induction names as [|n names IH]; intros es ents cnt Hfh Hcov Hlen.
  - simpl. split_and!; [done | lia | lia | done |].
    intros es' m e H Hm. assert (es' = es) as -> by congruence.
    destruct (Z.lt_ge_cases (ce_expire e) now) as [Hexp|?]; [|done].
    exfalso. eapply not_elem_of_nil, (Hcov m e Hm Hexp).
  - cbn [length] in Hlen. cbn [sweep_bucket length].
    destruct (es !! n) as [e|] eqn:Hn.
    2:{ destruct (IH es ents cnt Hfh) as (H1 & H2 & H3 & H4); [|lia|].
        - intros m e Hm Hexp. specialize (Hcov m e Hm Hexp).
          apply elem_of_cons in Hcov as [->|?]; [congruence | done].
        - split_and!; [done | lia | lia | done | done]. }
    destruct (Z.ltb_spec 1000 (cnt + 1)) as [?|Hgo]; [lia|].
    destruct (Z.ltb_spec (ce_expire e) now) as [Hexp|Hge].
    + destruct (Z.eqb_spec (Z.of_nat (size (delete n es))) 0) as [Hz|Hnz].
      * assert (Hempty : delete n es = ∅) by (apply map_size_empty_iff; lia).
        rewrite Hempty, sweep_bucket_empty. simpl.
        split_and!; [done | lia | lia | |].
        -- intros ino Hne. by rewrite lookup_delete_ne.
        -- intros es' m e' H. by rewrite lookup_delete_eq in H.
      * destruct (IH (delete n es) (<[fh := delete n es]> ents) (cnt + 1)%Z)
          as (H1 & H2 & H3 & H4); [apply lookup_insert_eq | | lia |].
        -- intros m e' Hm Hexp'. apply lookup_delete_Some in Hm as [Hnm Hm].
           specialize (Hcov m e' Hm Hexp').
           apply elem_of_cons in Hcov as [->|?]; [congruence | done].
        -- split_and!; [done | lia | lia | | done].
           intros ino Hne. rewrite H3 by done. by rewrite lookup_insert_ne.
    + destruct (IH es ents (cnt + 1)%Z Hfh) as (H1 & H2 & H3 & H4); [|lia|].
      * intros m e' Hm Hexp'. specialize (Hcov m e' Hm Hexp').
        apply elem_of_cons in Hcov as [->|?]; [|done].
        assert (e' = e) as -> by congruence. lia.
      * split_and!; [done | lia | lia | done | done].
Qed.

Lemma order_entries_cons (fh : string) (names : list string)
    (order : list (string * list string)) :
  order_entries ((fh, names) :: order)
  = (length names + order_entries order)%nat.
Proof. reflexivity. Qed.

Lemma sweep_complete (now : Z) (order : list (string * list string)) :
  ∀ (ents : cache) (cnt : Z),
  NoDup (order.*1) →
  (∀ fh names es, (fh, names) ∈ order → ents !! fh = Some es →
     ∀ n e, es !! n = Some e → (ce_expire e < now)%Z → n ∈ names) →
  (∀ ino es n e, ino ∉ order.*1 → ents !! ino = Some es → es !! n = Some e →
     (now ≤ ce_expire e)%Z) →
  (cnt + Z.of_nat (order_entries order) ≤ 1000)%Z →
  no_expired now (sweep now order ents cnt).1.
Proof.
  induction order as [|[fh names] order IH]; intros ents cnt Hnd Hcov Hrest Hlen.
  - simpl. intros ino es n e H Hn. eapply Hrest; [apply not_elem_of_nil|done..].
  - rewrite fmap_cons in Hnd. apply NoDup_cons in Hnd as [Hfh Hnd].
    rewrite order_entries_cons in Hlen.
    cbn [sweep]. destruct (ents !! fh) as [es|] eqn:Hes.
    + destruct (sweep_bucket_complete now fh names es ents cnt Hes)
        as (Hbrk & Hcnt & Hframe & Hclean);
        [by eapply Hcov; [left|] | lia |].
      destruct (sweep_bucket now fh names es ents cnt) as [[ents1 cnt1] brk].
      simpl in *. subst brk. apply IH; [done | | | lia].
      * intros fh' names' es' Hin Hes'.
        assert (fh' ≠ fh).
        { intros ->. apply Hfh. apply list_elem_of_fmap.
          by exists (fh, names'). }
        rewrite Hframe in Hes' by done. eapply Hcov; [by right | done].
      * intros ino es' n e Hino Hes' Hn.
        destruct (decide (ino = fh)) as [->|Hne]; [by eapply Hclean|].
        rewrite Hframe in Hes' by done.
        eapply (Hrest ino); [|done..].
        try rewrite fmap_cons. rewrite not_elem_of_cons. done.
    + apply IH; [done | | | lia].
      * intros fh' names' es' Hin Hes'. eapply Hcov; [by right | done].
      * intros ino es' n e Hino Hes' Hn.
        destruct (decide (ino = fh)) as [->|Hne]; [congruence|].
        eapply (Hrest ino); [|done..].
        try rewrite fmap_cons. rewrite not_elem_of_cons. done.
Qed.

Section JanitorExtra.
Context {E : Env}.
Implicit Types (st : State E) (order : list (string * list string)).

(** X9.  A pass of the janitor never deletes an entry that has not
    expired: an entry whose expiration is at or after the instant the pass
    reads is still in the cache after it, in whatever order the maps are
    walked.  In particular an entry that [cachedLookup] would still serve
    is never swept. *)
Theorem cleanupCache_pass_keeps_unexpired order st (ino n : string)
    (e : cacheEntry) :
  cache_lookup (entries (target st)) ino n = Some e →
  ((time_Now E (world st)).1 ≤ ce_expire e)%Z →
  cache_lookup (entries (target (cleanupCache_pass order st).2)) ino n = Some e.
Proof.
  intros Hin Hge. destruct (cleanupCache_pass_swept order st) as [H1 H2].
  unfold cache_lookup in *.
  destruct (entries (target st) !! ino) as [es|] eqn:Hes; [|done].
  simpl in Hin.
  destruct (entries (target (cleanupCache_pass order st).2) !! ino)
    as [es'|] eqn:Hes'; simpl.
  - destruct (H1 ino es' Hes') as (es0 & H0 & _ & Hk).
    assert (es0 = es) as -> by congruence. by apply Hk.
  - destruct (H2 ino es Hes Hes') as [_ Hexp].
    specialize (Hexp n e Hin). lia.
Qed.


(** X11.  A parent key whose map holds no expired entry is left exactly
    as it is by a pass.  This includes a key whose map is empty: the
    janitor removes a key only right after deleting its last entry, so the
    empty maps that [invalidateEntryCache] leaves behind are never
    removed. *)
Theorem cleanupCache_pass_keeps_clean_bucket order st (ino : string)
    (es : gmap string cacheEntry) :
  entries (target st) !! ino = Some es →
  (∀ n e, es !! n = Some e → ((time_Now E (world st)).1 ≤ ce_expire e)%Z) →
  entries (target (cleanupCache_pass order st).2) !! ino = Some es.
Proof.
  intros Hes Hclean. destruct (cleanupCache_pass_swept order st) as [H1 H2].
  destruct (entries (target (cleanupCache_pass order st).2) !! ino)
    as [es'|] eqn:Hes'.
  - destruct (H1 ino es' Hes') as (es0 & H0 & Hsub & Hk).
    assert (es0 = es) as -> by congruence. f_equal.
    apply map_eq. intros n. destruct (es !! n) as [e|] eqn:Hn.
    + apply Hk; [done | by eapply Hclean].
    + destruct (es' !! n) as [e'|] eqn:Hn'; [|done].
      eapply lookup_weaken in Hn'; [|exact Hsub]. congruence.
  - destruct (H2 ino es Hes Hes') as [Hne Hexp]. exfalso. apply Hne.
    apply map_eq. intros n. rewrite lookup_empty.
    destruct (es !! n) as [e|] eqn:Hn; [|done].
    specialize (Hexp n e Hn). specialize (Hclean n e Hn). lia.
Qed.

(** X12.  When the order of the walk lists at most 1000 entries, a pass
    reaches all of them: afterwards the cache holds no entry whose
    expiration is before the instant the pass has read. *)
Theorem cleanupCache_pass_complete order st :
  range_order (entries (target st)) order →
  (order_entries order ≤ 1000)%nat →
  no_expired (time_Now E (world st)).1
    (entries (target (cleanupCache_pass order st).2)).
Proof.
  intros (Hnd & Hkeys & Hnames) Hlen.
  rewrite cleanupCache_pass_entries. apply sweep_complete; [done | | | lia].
  - intros fh names es Hin Hes n e Hn _.
    destruct (Hnames fh names es Hin Hes) as [_ Hdom]. apply Hdom. eauto.
  - intros ino es n e Hino Hes _. exfalso. apply Hino, Hkeys. eauto.
Qed.

End JanitorExtra.

Lemma staleTarget_range_order :
  range_order (entries staleTarget) [(parsefh (handle "root"), ["a"; "old"])].
Proof.
  split; [|split]; simpl.
  - apply NoDup_singleton.
  - intros fh. rewrite list_elem_of_singleton. split.
    + intros ->. rewrite lookup_singleton_eq. eauto.
    + intros [es Hes]. apply lookup_singleton_Some in Hes as [<- _]. reflexivity.
  - intros fh names es Hin Hes.
    apply list_elem_of_singleton in Hin. injection Hin as -> ->.
    rewrite lookup_singleton_eq in Hes. injection Hes as <-. split.
    + apply NoDup_cons. split; [|apply NoDup_singleton].
      intros H%list_elem_of_singleton. discriminate H.
    + intros n. unfold staleBucket. split.
      * intros [->|[->|H]%elem_of_cons]%elem_of_cons;
          [by eexists | by eexists | by apply not_elem_of_nil in H].
      * intros [e He]. apply lookup_insert_Some in He as [[<- _]|[_ He]];
          [by left|].
        apply lookup_singleton_Some in He as [<- _]. right. by left.
Qed.

Lemma cleanupCache_pass_keeps_unexpired_witness :
  cache_lookup
    (entries (target (cleanupCache_pass
                        [(parsefh (handle "root"), ["a"; "old"])]
                        (start (server_at 50) staleTarget)).2))
    (parsefh (handle "root")) "a"
  = Some (mkCacheEntry (handle "a") dirAttr 100).
Proof.
  apply (cleanupCache_pass_keeps_unexpired (E := testEnv));
    [reflexivity | simpl; lia].
Defined.


Lemma cleanupCache_pass_keeps_clean_bucket_witness :
  entries (target (cleanupCache_pass [(parsefh (handle "root"), [])]
                     (start (server_at 50) emptyBucketTarget)).2)
    !! parsefh (handle "root")
  = Some ∅.
Proof.
  apply (cleanupCache_pass_keeps_clean_bucket (E := testEnv));
    [reflexivity | intros n e H; discriminate H].
Defined.

Lemma cleanupCache_pass_complete_witness :
  no_expired 50
    (entries (target (cleanupCache_pass
                        [(parsefh (handle "root"), ["a"; "old"])]
                        (start (server_at 50) staleTarget)).2)).
Proof.
  apply (cleanupCache_pass_complete (E := testEnv)
           [(parsefh (handle "root"), ["a"; "old"])]
           (start (server_at 50) staleTarget)).
  - exact staleTarget_range_order.
  - unfold order_entries. simpl. lia.
Defined.

(** ** What the operations keep *)

Section Preserves.
Context {E : Env}.
Implicit Types (st : State E) (P : cache → Prop).

Lemma preserves_ret {A} P (a : A) : preserves (E:=E) P (mret a : M E A).
Proof. intros st H. exact H. Qed.

Lemma preserves_lift {A} P (r : result A) : preserves (E:=E) P (lift r : M E A).
Proof. intros st H. exact H. Qed.

Lemma preserves_bind {A B} P (m : M E A) (k : A → M E B) :
  preserves P m → (∀ a, preserves (E:=E) P (k a)) → preserves (E:=E) P (m ≫= k).
Proof.
  intros Hm Hk st H. specialize (Hm st H). unfold_M.
  destruct (m st) as [[a|err|] st1]; simpl in *; [by apply Hk | done..].
Qed.

Lemma preserves_call P (c : Request) : preserves (E:=E) P (call c).
Proof.
  intros st H. destruct (call_state c st) as [_ Ht]. by rewrite Ht.
Qed.

Lemma preserves_lookup P (fh : FH) (name : string) :
  preserves (E:=E) P (lookup fh name).
Proof.
  intros st H. destruct (lookup_state fh name st) as [_ Ht]. by rewrite Ht.
Qed.

Lemma dirs_only_cachedLookup (fh : FH) (name : string) :
  preserves (E:=E) dirs_only (cachedLookup fh name).
Proof.
  assert (Hrem : ∀ st0,
    entries (target st0) = entries (target st0) →
    dirs_only (entries (target st0)) →
    dirs_only (entries (target
      (cachedLookup_remote fh name (entries (target st0) !! parsefh fh) st0).2))).
  { intros st0 _ Hd. unfold cachedLookup_remote.
    destruct (lookup_state fh name st0) as [_ Ht].
    destruct (lookup fh name st0) as [[[attr fh']|err|] st1];
      simpl in *; [|by rewrite Ht..].
    destruct (Z.eqb_spec (Type_ attr) 2) as [Hdir|_]; [|by simpl; rewrite Ht].
    destruct (time_Now E (world st1)) as [now w2]. simpl. rewrite Ht.
    intros ino es n e Hes Hn.
    destruct (decide (parsefh fh = ino)) as [<-|Hne].
    - rewrite lookup_insert_eq in Hes. injection Hes as <-.
      destruct (decide (name = n)) as [<-|Hnn].
      + rewrite lookup_insert_eq in Hn. by injection Hn as <-.
      + rewrite lookup_insert_ne in Hn by done.
        destruct (entries (target st0) !! parsefh fh) as [es0|] eqn:H0;
          simpl in Hn; [by eapply Hd | by rewrite lookup_empty in Hn].
    - rewrite lookup_insert_ne in Hes by done. by eapply Hd. }
  intros st Hd. unfold cachedLookup.
  destruct (entries (target st) !! parsefh fh ≫= _) as [e|]; [|by apply Hrem].
  destruct (time_Now E (world st)) as [now w1].
  destruct (now - ce_expire e <? 0)%Z; [exact Hd|].
  by apply (Hrem (set_world st w1)).
Qed.

Lemma dirs_only_invalidate (fh : FH) (name : string) :
  preserves (E:=E) dirs_only (invalidateEntryCache fh name).
Proof.
  intros st Hd. rewrite invalidateEntryCache_entries.
  intros ino es n e Hes Hn.
  destruct (decide (parsefh fh = ino)) as [<-|Hne].
  - rewrite lookup_alter_eq in Hes.
    destruct (entries (target st) !! parsefh fh) as [es0|] eqn:H0; [|done].
    injection Hes as <-. apply lookup_delete_Some in Hn as [_ Hn].
    by eapply Hd.
  - rewrite lookup_alter_ne in Hes by done. by eapply Hd.
Qed.

Lemma dirs_only_Lookup_loop (dirents : list string) :
  ∀ fattr fh, preserves (E:=E) dirs_only (Lookup_loop dirents fattr fh).
Proof.
  induction dirents as [|d rest IH]; intros fattr fh; simpl.
  - apply preserves_ret.
  - apply preserves_bind; [apply dirs_only_cachedLookup|].
    intros [fattr' fh']. apply IH.
Qed.

Lemma dirs_only_Lookup (p : string) : preserves (E:=E) dirs_only (Lookup p).
Proof. intros st. unfold Lookup. apply dirs_only_Lookup_loop. Qed.

Lemma preserves_readDirPlus_loop P (fuel : nat) :
  ∀ fh cookie verf acc, preserves (E:=E) P (readDirPlus_loop fuel fh cookie verf acc).
Proof.
  induction fuel as [|fuel IH]; intros fh cookie verf acc; simpl.
  - apply preserves_lift.
  - apply preserves_bind; [apply preserves_call|]. intros res.
    apply preserves_bind; [apply preserves_lift|]. intros [dl res1].
    apply preserves_bind; [apply preserves_lift|]. intros [[cookie' acc'] res2].
    apply preserves_bind; [apply preserves_lift|]. intros [eof ?].
    destruct eof; [apply preserves_ret | apply IH].
Qed.

Lemma dirs_only_remove (fh : FH) (name : string) :
  preserves (E:=E) dirs_only (remove fh name).
Proof.
  apply preserves_bind; [apply preserves_call|].
  intros _. apply dirs_only_invalidate.
Qed.

Lemma dirs_only_rmDir (fh : FH) (name : string) :
  preserves (E:=E) dirs_only (rmDir fh name).
Proof.
  apply preserves_bind; [apply preserves_call|].
  intros _. apply dirs_only_invalidate.
Qed.

Lemma dirs_only_removeAll_entries (rec : FH → M E unit) (fh : FH)
    (l : list EntryPlus) :
  (∀ h, preserves (E:=E) dirs_only (rec h)) →
  preserves (E:=E) dirs_only (removeAll_entries rec fh l).
Proof.
  intros Hrec. induction l as [|ent rest IH]; simpl.
  - apply preserves_ret.
  - destruct (_ || _); [exact IH|].
    apply preserves_bind; [|intros _; exact IH].
    destruct (_ =? _)%Z; [|apply dirs_only_remove].
    apply preserves_bind; [|intros _; apply dirs_only_rmDir].
    destruct (FH_IsSet _); [apply Hrec | apply preserves_ret].
Qed.

Lemma dirs_only_removeAll (fuel : nat) :
  ∀ fh, preserves (E:=E) dirs_only (removeAll fuel fh).
Proof.
  induction fuel as [|fuel IH]; intros fh; simpl.
  - apply preserves_lift.
  - apply preserves_bind; [apply preserves_readDirPlus_loop|].
    intros l. by apply dirs_only_removeAll_entries.
Qed.

Lemma dirs_only_RemoveAll (fuel : nat) (path : string) :
  preserves (E:=E) dirs_only (RemoveAll fuel path).
Proof.
  unfold RemoveAll. destruct (filepath_Split path) as [parentDir deleteDir].
  apply preserves_bind; [apply dirs_only_Lookup|]. intros [fattr pfh] st Hd.
  pose proof (dirs_only_rmDir pfh deleteDir st Hd) as Hrm.
  destruct (rmDir pfh deleteDir st) as [[[]|err|] st1]; simpl in *; [done| |done].
  destruct (os_IsNotExist err); [done|].
  destruct (IsNotDirError E err); [done|].
  revert st1 Hrm.
  change (preserves (E:=E) dirs_only
    ('(_, deleteDirfh) ← lookup pfh deleteDir;
     _ ← removeAll fuel deleteDirfh; rmDir pfh deleteDir)).
  apply preserves_bind; [apply preserves_lookup|]. intros [? dfh].
  apply preserves_bind; [apply dirs_only_removeAll|]. intros _.
  apply dirs_only_rmDir.
Qed.

Lemma dirs_only_swept (now : Z) (c c' : cache) :
  swept now c c' → dirs_only c → dirs_only c'.
Proof.
  intros [H1 _] Hd ino es' n e Hes' Hn.
  destruct (H1 ino es' Hes') as (es & Hes & Hsub & _).
  eapply Hd; [exact Hes | by eapply lookup_weaken].
Qed.

(** X13.  The cache only ever holds directories: if every entry of the
    cache has attributes of type 2 before an operation, the same is true
    after it, for each of the resolver, the pager, the four mutations, the
    recursive delete and a pass of the janitor, whatever the server
    answers. *)
Theorem cache_holds_directories_only st (path : string) (perm : Z)
    (fuel : nat) (order : list (string * list string)) :
  dirs_only (entries (target st)) →
  dirs_only (entries (target (Lookup path st).2))
  ∧ dirs_only (entries (target (ReadDirPlus fuel path st).2))
  ∧ dirs_only (entries (target (Mkdir path perm st).2))
  ∧ dirs_only (entries (target (Create path perm st).2))
  ∧ dirs_only (entries (target (Remove path st).2))
  ∧ dirs_only (entries (target (RmDir path st).2))
  ∧ dirs_only (entries (target (RemoveAll fuel path st).2))
  ∧ dirs_only (entries (target (cleanupCache_pass order st).2)).
Proof.
  intros Hd. split_and!.
  - by apply dirs_only_Lookup.
  - revert st Hd. change (preserves (E:=E) dirs_only (ReadDirPlus (E := E) fuel path)).
    apply preserves_bind; [apply dirs_only_Lookup|]. intros [? fh].
    apply preserves_readDirPlus_loop.
  - revert st Hd. change (preserves (E:=E) dirs_only (Mkdir (E := E) path perm)).
    unfold Mkdir. destruct (filepath_Split path) as [dir leaf].
    apply preserves_bind; [apply dirs_only_Lookup|]. intros [? fh].
    apply preserves_bind; [apply preserves_call|]. intros res.
    apply preserves_bind; [apply preserves_lift|]. intros [r ?].
    apply preserves_bind; [apply dirs_only_invalidate|]. intros _.
    apply preserves_ret.
  - revert st Hd. change (preserves (E:=E) dirs_only (Create (E := E) path perm)).
    unfold Create. destruct (filepath_Split path) as [dir leaf].
    apply preserves_bind; [apply dirs_only_Lookup|]. intros [? fh].
    apply preserves_bind; [apply preserves_call|]. intros res.
    apply preserves_bind; [apply preserves_lift|]. intros [r ?].
    apply preserves_bind; [apply dirs_only_invalidate|]. intros _.
    apply preserves_ret.
  - revert st Hd. change (preserves (E:=E) dirs_only (Remove (E := E) path)).
    unfold Remove. destruct (filepath_Split path) as [dir leaf].
    apply preserves_bind; [apply dirs_only_Lookup|]. intros [? fh].
    apply dirs_only_remove.
  - revert st Hd. change (preserves (E:=E) dirs_only (RmDir (E := E) path)).
    unfold RmDir. destruct (filepath_Split path) as [dir leaf].
    apply preserves_bind; [apply dirs_only_Lookup|]. intros [? fh].
    apply dirs_only_rmDir.
  - by apply dirs_only_RemoveAll.
  - eapply dirs_only_swept; [apply cleanupCache_pass_swept | done].
Qed.

End Preserves.

Lemma rootCachedTarget_dirs_only : dirs_only (entries rootCachedTarget).
Proof.
  intros ino es n e Hes Hn. simpl in Hes.
  apply lookup_singleton_Some in Hes as [_ <-].
  apply lookup_insert_Some in Hn as [[_ <-]|[_ Hn]]; [reflexivity|].
  apply lookup_singleton_Some in Hn as [_ <-]. reflexivity.
Qed.

Lemma cache_holds_directories_only_witness :
  dirs_only (entries (target (RmDir "e" (start (server_at 50) rootCachedTarget)).2))
  ∧ dirs_only (entries (target (cleanupCache_pass
                                  [(parsefh (handle "root"), ["."; "e"])]
                                  (start (server_at 50) rootCachedTarget)).2)).
Proof.
  pose proof (cache_holds_directories_only (E := testEnv)
                (start (server_at 50) rootCachedTarget) "e" 493 3
                [(parsefh (handle "root"), ["."; "e"])]
                rootCachedTarget_dirs_only) as H.
  split; [exact (proj1 (proj2 (proj2 (proj2 (proj2 (proj2 H))))))
         | exact (proj2 (proj2 (proj2 (proj2 (proj2 (proj2 (proj2 H)))))))].
Defined.

(** ** The resolver and the operations on paths *)

Section PathOps.
Context {E : Env}.
Implicit Types (st : State E).

(** X14.  Resolution composes: resolving the elements [l1 ++ l2] is
    resolving [l1] and then, from the handle reached, [l2]; when an
    element of [l1] fails, that error is the result and nothing is asked
    about [l2]. *)
Theorem Lookup_loop_app (l1 l2 : list string) (fattr : option Fattr)
    (fh : FH) st :
  Lookup_loop (l1 ++ l2) fattr fh st
  = ('(fattr1, fh1) ← Lookup_loop l1 fattr fh; Lookup_loop l2 fattr1 fh1) st.
Proof.
  revert fattr fh st. induction l1 as [|d l1 IH]; intros fattr fh st; simpl.
  - reflexivity.
  - unfold_M.
    destruct (cachedLookup fh _ st) as [[[fattr' fh']|err|] st1]; [|done..].
    apply IH.
Qed.

Lemma cachedLookup_trace (fh : FH) (name : string) st :
  trace (cachedLookup fh name st).2 = trace st
  ∨ trace (cachedLookup fh name st).2 = trace st ++ [Lookup3Args fh name].
Proof.
  unfold cachedLookup.
  destruct (entries (target st) !! parsefh fh ≫= _) as [e|].
  - destruct (time_Now E (world st)) as [now w1].
    destruct (now - ce_expire e <? 0)%Z; [by left|].
    right. by rewrite cachedLookup_remote_trace.
  - right. apply cachedLookup_remote_trace.
Qed.

(** X15.  The resolver sends nothing but LOOKUP requests, and at most one
    for each element of the path. *)
Theorem Lookup_loop_requests (dirents : list string) (fattr : option Fattr)
    (fh : FH) st :
  ∃ reqs, trace (Lookup_loop dirents fattr fh st).2 = trace st ++ reqs
          ∧ (length reqs ≤ length dirents)%nat
          ∧ Forall is_Lookup3Args reqs.
Proof.
  revert fattr fh st. induction dirents as [|d rest IH]; intros fattr fh st.
  - exists []. simpl. by rewrite app_nil_r.
  - simpl. unfold_M.
    set (name := if String.eqb d EmptyString then "." else d).
    pose proof (cachedLookup_trace fh name st) as Hc.
    destruct (cachedLookup fh name st) as [[[fattr' fh']|err|] st1];
      simpl in Hc.
    + destruct (IH (Some fattr') fh' st1) as (reqs & Ht & Hlen & Hall).
      destruct Hc as [Hc|Hc]; rewrite Hc in Ht.
      * exists reqs. split; [done|]. split; [lia | done].
      * exists (Lookup3Args fh name :: reqs).
        rewrite <- app_assoc in Ht. split; [done|].
        split; [simpl; lia | by constructor].
    + destruct Hc as [Hc|Hc]; simpl; rewrite Hc.
      * exists []. rewrite app_nil_r. split; [done|]. split; [simpl; lia | done].
      * exists [Lookup3Args fh name]. split; [done|].
        split; [simpl; lia | by repeat constructor].
    + destruct Hc as [Hc|Hc]; simpl; rewrite Hc.
      * exists []. rewrite app_nil_r. split; [done|]. split; [simpl; lia | done].
      * exists [Lookup3Args fh name]. split; [done|].
        split; [simpl; lia | by repeat constructor].
Qed.

(** X16.  When the parent directory cannot be resolved, each operation
    on a path returns the resolver's error unchanged and does nothing
    more: no mutation request is sent and the cache is as the resolver
    left it. *)
Theorem parent_resolution_failure (path : string) (perm : Z) (fuel : nat)
    (err : error) st st1 :
  Lookup (filepath_Split path).1 st = (Err err, st1) →
  Mkdir path perm st = (Err err, st1)
  ∧ Create path perm st = (Err err, st1)
  ∧ Remove path st = (Err err, st1)
  ∧ RmDir path st = (Err err, st1)
  ∧ RemoveAll fuel path st = (Err err, st1).
Proof.
  intros HL. unfold Mkdir, Create, Remove, RmDir, RemoveAll.
  destruct (filepath_Split path) as [dir leaf]. simpl in HL.
  unfold_M. rewrite HL. done.
Qed.

Lemma Perm_bounds (perm : Z) : (0 ≤ Perm perm ≤ 511)%Z.
Proof.
  unfold Perm. change (Z.land perm 511) with (Z.land perm (Z.ones 9)).
  rewrite Z.land_ones by lia.
  pose proof (Z.mod_pos_bound perm (2 ^ 9) eq_refl).
  change (2 ^ 9)%Z with 512%Z in *. lia.
Qed.

(** X17.  Once the parent is resolved to a handle, each mutation sends
    exactly one request, addressed to that handle with the leaf name of
    the path; [Mkdir] and [Create] send of the mode only its nine
    permission bits. *)
Theorem mutation_sends_one_request (path : string) (perm : Z)
    (fattr : option Fattr) (fh : FH) st st1 :
  Lookup (filepath_Split path).1 st = (Ok (fattr, fh), st1) →
  let leaf := (filepath_Split path).2 in
  trace (Mkdir path perm st).2
  = trace st1 ++ [MkdirArgs fh leaf (Z.land perm 511)]
  ∧ trace (Create path perm st).2
    = trace st1 ++ [Create3Args fh leaf (Z.land perm 511)]
  ∧ trace (Remove path st).2 = trace st1 ++ [RemoveArgs fh leaf]
  ∧ trace (RmDir path st).2 = trace st1 ++ [RmDir3Args fh leaf]
  ∧ (0 ≤ Z.land perm 511 ≤ 511)%Z.
Proof.
  intros HL leaf. unfold leaf, Mkdir, Create, Remove, RmDir.
  destruct (filepath_Split path) as [dir name]. simpl in *.
  fold (Perm perm). split_and!.
  - unfold_M. rewrite HL.
    destruct (call_state (MkdirArgs fh name (Perm perm)) st1) as [Ht _].
    destruct (call (MkdirArgs fh name (Perm perm)) st1) as [[res|e|] st2];
      simpl in Ht; [|done..].
    destruct (xdr_Read_MkdirOk E res) as [[r ?]|e|]; [|done..].
    pose proof (invalidateEntryCache_trace fh name st2) as Hi.
    destruct (invalidateEntryCache fh name st2) as [[[]|e|] st3];
      simpl in *; congruence.
  - unfold_M. rewrite HL.
    destruct (call_state (Create3Args fh name (Perm perm)) st1) as [Ht _].
    destruct (call (Create3Args fh name (Perm perm)) st1) as [[res|e|] st2];
      simpl in Ht; [|done..].
    destruct (xdr_Read_Create3Res E res) as [[r ?]|e|]; [|done..].
    pose proof (invalidateEntryCache_trace fh name st2) as Hi.
    destruct (invalidateEntryCache fh name st2) as [[[]|e|] st3];
      simpl in *; congruence.
  - unfold_M. rewrite HL. apply remove_trace.
  - unfold_M. rewrite HL. apply rmDir_trace.
  - apply Perm_bounds.
  - apply Perm_bounds.
Qed.

End PathOps.

Lemma parent_resolution_failure_witness :
  Mkdir "a/b" 493 (start (server_at 0) freshTarget)
  = (Err (Error "error: 0"),
     mkState (server_at 0 : World testEnv) freshTarget
       [Lookup3Args (handle "root") "a"]).
Proof.
  exact (proj1 (parent_resolution_failure (E := testEnv) "a/b" 493 3
                  (Error "error: 0") (start (server_at 0) freshTarget)
                  (mkState (server_at 0 : World testEnv) freshTarget
                     [Lookup3Args (handle "root") "a"])
                  eq_refl)).
Defined.

Lemma mutation_sends_one_request_witness :
  trace (Mkdir "b" 2541 (start (server_at 50) rootCachedTarget)).2
  = [MkdirArgs (handle "root") "b" 493].
Proof.
  exact (proj1 (mutation_sends_one_request (E := testEnv) "b" 2541
                  (Some dirAttr) (handle "root")
                  (start (server_at 50) rootCachedTarget)
                  (start (server_at 50) rootCachedTarget)
                  eq_refl)).
Defined.

(** ** The pager and the recursive delete *)

Lemma read_entries_run_witness :
  read_entries (E := testEnv) 3
    [item e_dot; item e_dotdot; no_item; TBool false] 0 []
  = Ok (2%Z, [e_dot; e_dotdot], [TBool false]).
Proof.
  apply (read_entries_run (E := testEnv)
           [item e_dot; item e_dotdot; no_item; TBool false]
           [e_dot; e_dotdot] [TBool false]).
  - apply (entry_run_more testEnv _ (mkDirListPlus3 true e_dot)
             [item e_dotdot; no_item; TBool false]);
      [reflexivity | reflexivity |].
    apply (entry_run_more testEnv _ (mkDirListPlus3 true e_dotdot)
             [no_item; TBool false]);
      [reflexivity | reflexivity |].
    apply (entry_run_end testEnv _
             (mkDirListPlus3 false
                (mkEntryPlus EmptyString 0 noAttr (mkPostOpFH3 false []))));
      reflexivity.
  - simpl. lia.
Defined.

Section WalkExtra.
Context {E : Env}.
Implicit Types (st : State E).

Lemma readDirPlus_loop_requests (fuel : nat) :
  ∀ (fh : FH) (cookie verf : Z) (acc : list EntryPlus) st,
  ∃ reqs,
    trace (readDirPlus_loop fuel fh cookie verf acc st).2 = trace st ++ reqs
    ∧ Forall (is_ReadDirPlus_of fh) reqs
    ∧ target (readDirPlus_loop fuel fh cookie verf acc st).2 = target st
    ∧ (fuel ≠ O → head reqs = Some (ReadDirPlus3Args fh cookie verf 512 4096)).
Proof.
  induction fuel as [|fuel IH]; intros fh cookie verf acc st.
  - exists []. simpl. rewrite app_nil_r. by repeat split.
  - simpl. unfold_M.
    set (c := ReadDirPlus3Args fh cookie verf 512 4096).
    assert (Hc : is_ReadDirPlus_of fh c) by (by exists cookie, verf).
    destruct (call_state c st) as [Ht Htg].
    assert (Hstop : ∀ r : result (list EntryPlus),
      ∃ reqs, trace ((r, (call c st).2) : _ * State E).2 = trace st ++ reqs
        ∧ Forall (is_ReadDirPlus_of fh) reqs
        ∧ target ((r, (call c st).2) : _ * State E).2 = target st
        ∧ (S fuel ≠ O → head reqs = Some c)).
    { intros r. exists [c]. simpl. by repeat split; [| constructor |]. }
    destruct (call c st) as [[res|err|] st1]; simpl in *;
      [|apply (Hstop (Err err)) | apply (Hstop OutOfFuel)].
    destruct (xdr_Read_DirListOK E res) as [[dl res1]|err|];
      [|apply (Hstop (Err err)) | apply (Hstop OutOfFuel)].
    destruct (read_entries fuel res1 cookie acc) as [[[cookie' acc'] res2]|err|];
      [|apply (Hstop (Err err)) | apply (Hstop OutOfFuel)].
    destruct (xdr_Read_bool E res2) as [[eof ?]|err|];
      [|apply (Hstop (Err err)) | apply (Hstop OutOfFuel)].
    destruct eof; [apply (Hstop (Ok acc'))|].
    destruct (IH fh cookie' (CookieVerf dl) acc' st1) as (reqs & Hr & Hall & Htg' & _).
    exists (c :: reqs). rewrite Hr, Ht, <- app_assoc.
    split; [done|]. split; [by constructor|]. split; [congruence | done].
Qed.

(** X21.  The pager never touches the target or its cache; every request
    it sends is a READDIRPLUS for the handle it was given, with the limits
    512 and 4096, and the first one asks from cookie 0 with verifier 0. *)
Theorem readDirPlus_requests (fuel : nat) (fh : FH) st :
  ∃ rest,
    trace (readDirPlus (S fuel) fh st).2
    = trace st ++ ReadDirPlus3Args fh 0 0 512 4096 :: rest
    ∧ Forall (is_ReadDirPlus_of fh) rest
    ∧ target (readDirPlus (S fuel) fh st).2 = target st.
Proof.
  unfold readDirPlus.
  destruct (readDirPlus_loop_requests (S fuel) fh 0 0 [] st)
    as (reqs & Ht & Hall & Htg & Hhd).
  specialize (Hhd ltac:(done)).
  destruct reqs as [|c rest]; [discriminate Hhd|].
  injection Hhd as ->. apply Forall_cons in Hall as [_ Hall].
  by exists rest.
Qed.

(** X22.  The loop of the recursive delete composes over its listing:
    the entries [l1 ++ l2] are handled as [l1] and then [l2], so an error
    on an entry of [l1] is the result and the entries after it cause no
    request. *)
Theorem removeAll_entries_app (rec : FH → M E unit) (fh : FH)
    (l1 l2 : list EntryPlus) st :
  removeAll_entries rec fh (l1 ++ l2) st
  = (_ ← removeAll_entries rec fh l1; removeAll_entries rec fh l2) st.
Proof.
  revert st. induction l1 as [|ent l1 IH]; intros st; simpl.
  - reflexivity.
  - destruct (_ || _); [apply IH|]. unfold_M.
    match goal with |- context [match ?m st with _ => _ end] =>
      destruct (m st) as [[[]|err|] st1] end; [apply IH | done..].
Qed.

(** X23.  A listing that holds nothing but "." and ".." is done with at
    once: the loop succeeds without a request and without a change of
    state. *)
Theorem removeAll_entries_only_dots (rec : FH → M E unit) (fh : FH)
    (l : list EntryPlus) st :
  Forall is_dot l → removeAll_entries rec fh l st = (Ok tt, st).
Proof.
  induction 1 as [|ent l Hdot _ IH]; simpl; [reflexivity|].
  destruct Hdot as [-> | ->]; exact IH.
Qed.

End WalkExtra.

Lemma removeAll_entries_only_dots_witness :
  removeAll_entries (removeAll 3) (handle "a") [e_dot; e_dotdot]
    (start (server_at 0) freshTarget)
  = (Ok tt, start (server_at 0) freshTarget).
Proof.
  apply (removeAll_entries_only_dots (E := testEnv)).
  constructor; [by left|]. constructor; [by right|]. constructor.
Defined.

(** ** The easy path of [RemoveAll], from the server's answer *)

Section RemoveAllStatus.
Context {E : Env}.
Implicit Types (st : State E).

Lemma call_status (c : Request) st (res res' : Reader E) (w' : World E)
    (status : Z) (err : error) :
  rpc_Call E c (world st) = (Ok res, w') →
  xdr_ReadUint32 E res = Ok (status, res') →
  NFS3Error status = Some err →
  call c st = (Err err, log (set_world st w') c).
Proof. intros Hc Hr Hs. unfold call. by rewrite Hc, Hr, Hs. Qed.

(** X18.  With the parent resolved, when the server answers the RMDIR of
    the leaf with status 2 (no such entry), [RemoveAll] returns success;
    the RMDIR is the only request it sends after the resolution and the
    cache is not touched. *)
Theorem RemoveAll_absent_leaf (fuel : nat) (path : string) st
    (fattr : option Fattr) (pfh : FH) st1 (res res' : Reader E) (w2 : World E) :
  Lookup (filepath_Split path).1 st = (Ok (fattr, pfh), st1) →
  rpc_Call E (RmDir3Args pfh (filepath_Split path).2) (world st1) = (Ok res, w2) →
  xdr_ReadUint32 E res = Ok (NFS3ERR_NOENT, res') →
  RemoveAll fuel path st
  = (Ok tt, log (set_world st1 w2) (RmDir3Args pfh (filepath_Split path).2)).
Proof.
  intros HL Hc Hr.
  apply (RemoveAll_not_exist fuel path st fattr pfh st1 ErrNotExist);
    [exact HL | | reflexivity].
  unfold rmDir. unfold_M.
  by rewrite (call_status _ st1 res res' w2 NFS3ERR_NOENT ErrNotExist).
Qed.

(** X19.  With the parent resolved, when the RMDIR of the leaf is
    answered with a status whose translation [IsNotDirError] recognises,
    [RemoveAll] returns that error at once: the RMDIR is the only request
    sent after the resolution, nothing is listed and nothing is removed. *)
Theorem RemoveAll_leaf_not_a_directory (fuel : nat) (path : string) st
    (fattr : option Fattr) (pfh : FH) st1 (res res' : Reader E) (w2 : World E)
    (status : Z) (err : error) :
  Lookup (filepath_Split path).1 st = (Ok (fattr, pfh), st1) →
  rpc_Call E (RmDir3Args pfh (filepath_Split path).2) (world st1) = (Ok res, w2) →
  xdr_ReadUint32 E res = Ok (status, res') →
  NFS3Error status = Some err →
  os_IsNotExist err = false →
  IsNotDirError E err = true →
  RemoveAll fuel path st
  = (Err err, log (set_world st1 w2) (RmDir3Args pfh (filepath_Split path).2)).
Proof.
  intros HL Hc Hr Hs Hne Hnd.
  apply (RemoveAll_not_dir fuel path st fattr pfh st1 err); [exact HL | | done..].
  unfold rmDir. unfold_M.
  by rewrite (call_status _ st1 res res' w2 status err).
Qed.

End RemoveAllStatus.

Lemma RemoveAll_absent_leaf_witness :
  RemoveAll 3 "a/b" (start (server_at 50) cachedTarget)
  = (Ok tt, mkState (server_at 50 : World testEnv) cachedTarget
              [RmDir3Args (handle "a") "b"]).
Proof.
  exact (RemoveAll_absent_leaf (E := testEnv) 3 "a/b"
           (start (server_at 50) cachedTarget) (Some dirAttr) (handle "a")
           (start (server_at 50) cachedTarget)
           [TUint32 NFS3ERR_NOENT] [] (server_at 50)
           eq_refl eq_refl eq_refl).
Defined.

Lemma RemoveAll_leaf_not_a_directory_witness :
  RemoveAll 3 "a/d.txt" (start (server_at 50) cachedTarget)
  = (Err (Error "error: 20"),
     mkState (server_at 50 : World testEnv) cachedTarget
       [RmDir3Args (handle "a") "d.txt"]).
Proof.
  exact (RemoveAll_leaf_not_a_directory (E := testEnv) 3 "a/d.txt"
           (start (server_at 50) cachedTarget) (Some dirAttr) (handle "a")
           (start (server_at 50) cachedTarget)
           [TUint32 NFS3ERR_NOTDIR] [] (server_at 50)
           NFS3ERR_NOTDIR (Error "error: 20")
           eq_refl eq_refl eq_refl eq_refl eq_refl eq_refl).
Defined.
